(** * digital-stage/api-client-react: store reducers, media session helpers,
      position and gain resolution

    Shallow embedding of
      - src/redux/reducers/reduceCustomGroupPositions.ts (with the reducers
        for custom stage-member volumes and devices that share its file),
      - src/redux/reducers/reduceVideoTracks.ts,
      - src/hooks/useMediasoup/util.ts,
      - the audio renderer (gain effects) and useStageDevicePosition.

    JavaScript objects used as dictionaries are finite maps keyed by
    strings; arrays are lists; [undefined] is [None]. *)

From Stdlib Require Import ZArith QArith.
From stdpp Require Import gmap strings list fin_maps pretty.

Set Default Proof Using "Type".
#[local] Set Warnings "-clear-no-such-hyp".
Local Open Scope Z_scope.

(** ** JavaScript values and objects *)

(** Field values met in entity payloads.  [VDate src] is the object built
    by [new Date(v)], identified by its argument rendered as a string. *)
Inductive value :=
| VStr (s : string)
| VNum (z : Z)
| VBool (b : bool)
| VDate (src : string).

Global Instance value_eq_dec : EqDecision value.
Proof. solve_decision. Defined.

(** A model entity or an event payload: [_id] is typed [string] in every
    model type; the remaining own properties are kept as a dictionary. *)
Record entity := Entity { _id : string; fields : gmap string value }.

(** Property-key conversion of a computed key [[e.f]]: strings are used as
    they are, a missing field is the key ["undefined"]. *)
Definition prop_key (v : option value) : string :=
  match v with
  | None => "undefined"
  | Some (VStr s) => s
  | Some (VNum z) => pretty z
  | Some (VBool true) => "true"
  | Some (VBool false) => "false"
  | Some (VDate _) => "[object Date]"
  end.

(** [e.f] read as a property key. *)
Definition ref (e : entity) (f : string) : string := prop_key (fields e !! f).

(** [{...old, ...payload}]: spreading [undefined] contributes nothing; the
    payload's properties win. *)
Definition spread (old : option entity) (payload : entity) : entity :=
  {| _id := _id payload;
     fields := fields payload ∪ from_option fields ∅ old |}.

(** ** lodash and utility functions *)

(** [omit(object, key)]: a copy without [key]; [omit(undefined, key)] is
    the empty object. *)
Definition omit {V} (o : option (gmap string V)) (k : string) : gmap string V :=
  match o with
  | Some m => delete k m
  | None => ∅
  end.

(** [without(array, value)]: every occurrence is dropped;
    [without(undefined, value)] is the empty array. *)
Definition without (o : option (list string)) (v : string) : list string :=
  match o with
  | Some l => filter (λ x, x ≠ v) l
  | None => []
  end.

(** Modelled from the spec: [utils/upsert] is imported by the reducers but
    its file is not part of the sources.  The spec says that add "upserts
    (not duplicates) into allIds"; the reducers also call it on a bucket
    that may not exist yet. *)
Definition upsert (o : option (list string)) (v : string) : list string :=
  match o with
  | Some l => if bool_decide (v ∈ l) then l else l ++ [v]
  | None => [v]
  end.

(** ** Actions *)

(** The part of the [StageJoined] snapshot read by the modelled reducers;
    each list may be absent. *)
Record StageJoinedPayload := {
  customGroupPositions : option (list entity);
  customStageMemberVolumes : option (list entity);
  videoTracks : option (list entity);
}.

(** [action.type] with its payload.  [OtherAction] stands for every type
    that no modelled reducer has a case for. *)
Inductive action :=
| StageLeft
| RESET
| StageJoined (payload : StageJoinedPayload)
| CustomGroupPositionAdded (payload : entity)
| CustomGroupPositionChanged (payload : entity)
| CustomGroupPositionRemoved (payload : string)
| CustomStageMemberVolumeAdded (payload : entity)
| CustomStageMemberVolumeChanged (payload : entity)
| CustomStageMemberVolumeRemoved (payload : string)
| LocalDeviceReady (payload : entity)
| DeviceAdded (payload : entity)
| DeviceChanged (payload : entity)
| DeviceRemoved (payload : string)
| VideoTrackAdded (payload : entity)
| VideoTrackChanged (payload : entity)
| VideoTrackRemoved (payload : string)
| OtherAction.

(** [array.forEach(x => { acc = f(acc, x) })] on an optional array. *)
Definition forEach {S} (f : S → entity → S) (l : option (list entity)) (s : S) : S :=
  match l with
  | Some es => foldl f s es
  | None => s
  end.

(** ** reduceCustomGroupPositions.ts

    A bucket test [state.byGroup[k] ? ... : ...] is a presence test: an
    array, even an empty one, is truthy. *)

Module CustomGroupPositions.
Record t := mk {
  byId : gmap string entity;
  byDevice : gmap string (list string);
  byGroup : gmap string (list string);
  byDeviceAndGroup : gmap string (gmap string string);
  allIds : list string;
}.
End CustomGroupPositions.

Section reduceCustomGroupPositions.
Import CustomGroupPositions.

Definition initialCustomGroupPositions : CustomGroupPositions.t :=
  {| byId := ∅; byDevice := ∅; byGroup := ∅; byDeviceAndGroup := ∅; allIds := [] |}.

Definition addCustomGroupPosition
    (state : CustomGroupPositions.t) (customGroup : entity) : CustomGroupPositions.t :=
  let groupId := ref customGroup "groupId" in
  let deviceId := ref customGroup "deviceId" in
  {| byId := <[_id customGroup := customGroup]> (byId state);
     byGroup :=
       <[groupId := match byGroup state !! groupId with
                    | Some l => l ++ [_id customGroup]
                    | None => [_id customGroup]
                    end]> (byGroup state);
     byDevice :=
       <[deviceId := match byDevice state !! deviceId with
                     | Some l => l ++ [_id customGroup]
                     | None => [_id customGroup]
                     end]> (byDevice state);
     byDeviceAndGroup :=
       <[deviceId := <[groupId := _id customGroup]>
                       (default ∅ (byDeviceAndGroup state !! deviceId))]>
         (byDeviceAndGroup state);
     allIds := upsert (Some (allIds state)) (_id customGroup) |}.

Definition reduceCustomGroupPositions
    (state : CustomGroupPositions.t) (a : action) : CustomGroupPositions.t :=
  match a with
  | StageLeft | RESET => initialCustomGroupPositions
  | StageJoined payload =>
      forEach addCustomGroupPosition (customGroupPositions payload) state
  | CustomGroupPositionAdded customGroup => addCustomGroupPosition state customGroup
  | CustomGroupPositionChanged payload =>
      {| byId := <[_id payload := spread (byId state !! _id payload) payload]> (byId state);
         byDevice := byDevice state;
         byGroup := byGroup state;
         byDeviceAndGroup := byDeviceAndGroup state;
         allIds := allIds state |}
  | CustomGroupPositionRemoved id =>
      match byId state !! id with
      | Some stored =>
          let groupId := ref stored "groupId" in
          let deviceId := ref stored "deviceId" in
          {| byId := omit (Some (byId state)) id;
             byGroup := <[groupId := without (byGroup state !! groupId) id]> (byGroup state);
             byDevice := <[deviceId := without (byDevice state !! deviceId) id]> (byDevice state);
             byDeviceAndGroup :=
               <[deviceId := omit (byDeviceAndGroup state !! deviceId) groupId]>
                 (byDeviceAndGroup state);
             allIds := without (Some (allIds state)) id |}
      | None => state
      end
  | _ => state
  end.
End reduceCustomGroupPositions.

(** ** reduceCustomStageMemberVolumes (second module of the same file) *)

Module CustomStageMemberVolumes.
Record t := mk {
  byId : gmap string entity;
  byDevice : gmap string (list string);
  byStageMember : gmap string (list string);
  byDeviceAndStageMember : gmap string (gmap string string);
  allIds : list string;
}.
End CustomStageMemberVolumes.

Section reduceCustomStageMemberVolumes.
Import CustomStageMemberVolumes.

Definition initialCustomStageMemberVolumes : CustomStageMemberVolumes.t :=
  {| byId := ∅; byDevice := ∅; byStageMember := ∅; byDeviceAndStageMember := ∅;
     allIds := [] |}.

Definition addCustomStageMemberVolume
    (state : CustomStageMemberVolumes.t) (customStageMember : entity)
    : CustomStageMemberVolumes.t :=
  let stageMemberId := ref customStageMember "stageMemberId" in
  let deviceId := ref customStageMember "deviceId" in
  {| byId := <[_id customStageMember := customStageMember]> (byId state);
     byStageMember :=
       <[stageMemberId := match byStageMember state !! stageMemberId with
                          | Some l => l ++ [_id customStageMember]
                          | None => [_id customStageMember]
                          end]> (byStageMember state);
     byDevice :=
       <[deviceId := match byDevice state !! deviceId with
                     | Some l => l ++ [_id customStageMember]
                     | None => [_id customStageMember]
                     end]> (byDevice state);
     byDeviceAndStageMember :=
       <[deviceId := <[stageMemberId := _id customStageMember]>
                       (default ∅ (byDeviceAndStageMember state !! deviceId))]>
         (byDeviceAndStageMember state);
     allIds := upsert (Some (allIds state)) (_id customStageMember) |}.

Definition reduceCustomStageMemberVolumes
    (state : CustomStageMemberVolumes.t) (a : action) : CustomStageMemberVolumes.t :=
  match a with
  | StageLeft | RESET => initialCustomStageMemberVolumes
  | StageJoined payload =>
      forEach addCustomStageMemberVolume (customStageMemberVolumes payload) state
  | CustomStageMemberVolumeAdded customGroup => addCustomStageMemberVolume state customGroup
  | CustomStageMemberVolumeChanged payload =>
      {| byId := <[_id payload := spread (byId state !! _id payload) payload]> (byId state);
         byDevice := byDevice state;
         byStageMember := byStageMember state;
         byDeviceAndStageMember := byDeviceAndStageMember state;
         allIds := allIds state |}
  | CustomStageMemberVolumeRemoved id =>
      match byId state !! id with
      | Some stored =>
          let stageMemberId := ref stored "stageMemberId" in
          let deviceId := ref stored "deviceId" in
          {| byId := omit (Some (byId state)) id;
             byStageMember :=
               <[stageMemberId := without (byStageMember state !! stageMemberId) id]>
                 (byStageMember state);
             byDevice := <[deviceId := without (byDevice state !! deviceId) id]> (byDevice state);
             byDeviceAndStageMember :=
               <[deviceId := omit (byDeviceAndStageMember state !! deviceId) stageMemberId]>
                 (byDeviceAndStageMember state);
             allIds := without (Some (allIds state)) id |}
      | None => state
      end
  | _ => state
  end.
End reduceCustomStageMemberVolumes.

(** ** reduceDevices (third module of the same file) *)

Module Devices.
Record t := mk {
  byId : gmap string entity;
  allIds : list string;
}.
End Devices.

Section reduceDevices.
Import Devices.

Definition initialDevices : Devices.t := {| byId := ∅; allIds := [] |}.

(** [{...device, createdAt: new Date(device.createdAt),
      lastLoginAt: new Date(device.lastLoginAt)}] *)
Definition withDates (device : entity) : entity :=
  {| _id := _id device;
     fields := <["lastLoginAt" := VDate (ref device "lastLoginAt")]>
                 (<["createdAt" := VDate (ref device "createdAt")]> (fields device)) |}.

Definition reduceDevices (state : Devices.t) (a : action) : Devices.t :=
  match a with
  | RESET => initialDevices
  | LocalDeviceReady device | DeviceAdded device =>
      {| byId := <[_id device := withDates device]> (byId state);
         allIds := upsert (Some (allIds state)) (_id device) |}
  | DeviceChanged payload =>
      {| byId := <[_id payload := spread (byId state !! _id payload) payload]> (byId state);
         allIds := allIds state |}
  | DeviceRemoved payload =>
      {| byId := omit (Some (byId state)) payload;
         allIds := without (Some (allIds state)) payload |}
  | _ => state
  end.
End reduceDevices.

(** ** reduceVideoTracks.ts *)

Module VideoTracks.
Record t := mk {
  byId : gmap string entity;
  byStageMember : gmap string (list string);
  byStageDevice : gmap string (list string);
  byStage : gmap string (list string);
  byUser : gmap string (list string);
  allIds : list string;
}.
End VideoTracks.

Section reduceVideoTracks.
Import VideoTracks.

Definition initialVideoTracks : VideoTracks.t :=
  {| byId := ∅; byStageMember := ∅; byStageDevice := ∅; byStage := ∅; byUser := ∅;
     allIds := [] |}.

Definition addVideoTrack (state : VideoTracks.t) (videoTrack : entity) : VideoTracks.t :=
  let stageMemberId := ref videoTrack "stageMemberId" in
  let stageDeviceId := ref videoTrack "stageDeviceId" in
  let userId := ref videoTrack "userId" in
  let stageId := ref videoTrack "stageId" in
  {| byId := <[_id videoTrack := videoTrack]> (byId state);
     byStageMember :=
       <[stageMemberId := upsert (byStageMember state !! stageMemberId) (_id videoTrack)]>
         (byStageMember state);
     byStageDevice :=
       <[stageDeviceId := upsert (byStageDevice state !! stageDeviceId) (_id videoTrack)]>
         (byStageDevice state);
     byUser := <[userId := upsert (byUser state !! userId) (_id videoTrack)]> (byUser state);
     byStage := <[stageId := upsert (byStage state !! stageId) (_id videoTrack)]> (byStage state);
     allIds := upsert (Some (allIds state)) (_id videoTrack) |}.

Definition reduceVideoTracks (state : VideoTracks.t) (a : action) : VideoTracks.t :=
  match a with
  | StageLeft | RESET => initialVideoTracks
  | StageJoined payload => forEach addVideoTrack (videoTracks payload) state
  | VideoTrackAdded videoTrack => addVideoTrack state videoTrack
  | VideoTrackChanged update =>
      {| byId := <[_id update := spread (byId state !! _id update) update]> (byId state);
         byStageMember := byStageMember state;
         byStageDevice := byStageDevice state;
         byStage := byStage state;
         byUser := byUser state;
         allIds := allIds state |}
  | VideoTrackRemoved id =>
      match byId state !! id with
      | None => state
      | Some stored =>
          let stageId := ref stored "stageId" in
          let stageMemberId := ref stored "stageMemberId" in
          let userId := ref stored "userId" in
          let stageDeviceId := ref stored "stageDeviceId" in
          {| byId := omit (Some (byId state)) id;
             byStageMember :=
               <[stageMemberId := without (byStageMember state !! stageMemberId) id]>
                 (byStageMember state);
             byStageDevice :=
               <[stageDeviceId := without (byStageDevice state !! stageDeviceId) id]>
                 (byStageDevice state);
             byStage := <[stageId := without (byStage state !! stageId) id]> (byStage state);
             byUser := <[userId := without (byUser state !! userId) id]> (byUser state);
             allIds := without (Some (allIds state)) id |}
      end
  | _ => state
  end.
End reduceVideoTracks.

(** Running a reducer over a sequence of dispatched actions. *)
Definition run {S} (reduce : S → action → S) (s : S) (evs : list action) : S :=
  foldl reduce s evs.

(** ** The four stores seen through one interface *)

Inductive kind :=
| KCustomGroupPositions
| KCustomStageMemberVolumes
| KDevices
| KVideoTracks.

Definition store (k : kind) : Type :=
  match k with
  | KCustomGroupPositions => CustomGroupPositions.t
  | KCustomStageMemberVolumes => CustomStageMemberVolumes.t
  | KDevices => Devices.t
  | KVideoTracks => VideoTracks.t
  end.

Definition initial (k : kind) : store k :=
  match k with
  | KCustomGroupPositions => initialCustomGroupPositions
  | KCustomStageMemberVolumes => initialCustomStageMemberVolumes
  | KDevices => initialDevices
  | KVideoTracks => initialVideoTracks
  end.

Definition reduce (k : kind) : store k → action → store k :=
  match k with
  | KCustomGroupPositions => reduceCustomGroupPositions
  | KCustomStageMemberVolumes => reduceCustomStageMemberVolumes
  | KDevices => reduceDevices
  | KVideoTracks => reduceVideoTracks
  end.

Definition byIdOf (k : kind) : store k → gmap string entity :=
  match k with
  | KCustomGroupPositions => CustomGroupPositions.byId
  | KCustomStageMemberVolumes => CustomStageMemberVolumes.byId
  | KDevices => Devices.byId
  | KVideoTracks => VideoTracks.byId
  end.

Definition allIdsOf (k : kind) : store k → list string :=
  match k with
  | KCustomGroupPositions => CustomGroupPositions.allIds
  | KCustomStageMemberVolumes => CustomStageMemberVolumes.allIds
  | KDevices => Devices.allIds
  | KVideoTracks => VideoTracks.allIds
  end.

(** The bucket indices of a store, each with the parent-reference field
    that keys it. *)
Definition indicesOf (k : kind) : store k → list (string * gmap string (list string)) :=
  match k with
  | KCustomGroupPositions => λ s,
      [("groupId", CustomGroupPositions.byGroup s);
       ("deviceId", CustomGroupPositions.byDevice s)]
  | KCustomStageMemberVolumes => λ s,
      [("stageMemberId", CustomStageMemberVolumes.byStageMember s);
       ("deviceId", CustomStageMemberVolumes.byDevice s)]
  | KDevices => λ _, []
  | KVideoTracks => λ s,
      [("stageMemberId", VideoTracks.byStageMember s);
       ("stageDeviceId", VideoTracks.byStageDevice s);
       ("stageId", VideoTracks.byStage s);
       ("userId", VideoTracks.byUser s)]
  end.

(** The compound indices, each with its outer and inner key fields. *)
Definition compoundOf (k : kind)
    : store k → list (string * string * gmap string (gmap string string)) :=
  match k with
  | KCustomGroupPositions => λ s,
      [("deviceId", "groupId", CustomGroupPositions.byDeviceAndGroup s)]
  | KCustomStageMemberVolumes => λ s,
      [("deviceId", "stageMemberId", CustomStageMemberVolumes.byDeviceAndStageMember s)]
  | KDevices => λ _, []
  | KVideoTracks => λ _, []
  end.

(** Parent-reference fields of a kind. *)
Definition refFields (k : kind) : list string :=
  match k with
  | KCustomGroupPositions => ["groupId"; "deviceId"]
  | KCustomStageMemberVolumes => ["stageMemberId"; "deviceId"]
  | KDevices => []
  | KVideoTracks => ["stageMemberId"; "stageDeviceId"; "stageId"; "userId"]
  end.

(** The events of a kind. *)
Definition addedEvent (k : kind) : entity → action :=
  match k with
  | KCustomGroupPositions => CustomGroupPositionAdded
  | KCustomStageMemberVolumes => CustomStageMemberVolumeAdded
  | KDevices => DeviceAdded
  | KVideoTracks => VideoTrackAdded
  end.

Definition changedEvent (k : kind) : entity → action :=
  match k with
  | KCustomGroupPositions => CustomGroupPositionChanged
  | KCustomStageMemberVolumes => CustomStageMemberVolumeChanged
  | KDevices => DeviceChanged
  | KVideoTracks => VideoTrackChanged
  end.

Definition removedEvent (k : kind) : string → action :=
  match k with
  | KCustomGroupPositions => CustomGroupPositionRemoved
  | KCustomStageMemberVolumes => CustomStageMemberVolumeRemoved
  | KDevices => DeviceRemoved
  | KVideoTracks => VideoTrackRemoved
  end.

(** The entities an action adds to the store of kind [k], in order. *)
Definition addedBy (k : kind) (a : action) : list entity :=
  match k, a with
  | KCustomGroupPositions, StageJoined p => default [] (customGroupPositions p)
  | KCustomGroupPositions, CustomGroupPositionAdded e => [e]
  | KCustomStageMemberVolumes, StageJoined p => default [] (customStageMemberVolumes p)
  | KCustomStageMemberVolumes, CustomStageMemberVolumeAdded e => [e]
  | KDevices, (LocalDeviceReady e | DeviceAdded e) => [e]
  | KVideoTracks, StageJoined p => default [] (videoTracks p)
  | KVideoTracks, VideoTrackAdded e => [e]
  | _, _ => []
  end.

(** The patch an action applies to the store of kind [k]. *)
Definition patchedBy (k : kind) (a : action) : option entity :=
  match k, a with
  | KCustomGroupPositions, CustomGroupPositionChanged p
  | KCustomStageMemberVolumes, CustomStageMemberVolumeChanged p
  | KDevices, DeviceChanged p
  | KVideoTracks, VideoTrackChanged p => Some p
  | _, _ => None
  end.

(** ** Consistency predicates *)

(** [allIds] lists exactly the keys of [byId], once each. *)
Definition ids_ok (byId : gmap string entity) (allIds : list string) : Prop :=
  NoDup allIds ∧ ∀ id, id ∈ allIds ↔ is_Some (byId !! id).

(** Every bucket of a bucket index is duplicate-free and holds stored ids only. *)
Definition index_ok (byId : gmap string entity) (idx : gmap string (list string)) : Prop :=
  ∀ key l, idx !! key = Some l → NoDup l ∧ ∀ id, id ∈ l → is_Some (byId !! id).

(** Every id a compound index maps to is stored. *)
Definition compound_ok (byId : gmap string entity)
    (cidx : gmap string (gmap string string)) : Prop :=
  ∀ d m t id, cidx !! d = Some m → m !! t = Some id → is_Some (byId !! id).

(** [id] occurs nowhere in the index. *)
Definition index_free (id : string) (idx : gmap string (list string)) : Prop :=
  ∀ key l, idx !! key = Some l → id ∉ l.

Definition compound_free (id : string) (cidx : gmap string (gmap string string)) : Prop :=
  ∀ d m t, cidx !! d = Some m → m !! t ≠ Some id.

(** The inductive strengthening: a bucket under key [key] of the index on
    field [f] only holds ids of stored records whose field [f] reads [key]. *)
Definition index_sound (f : string) (byId : gmap string entity)
    (idx : gmap string (list string)) : Prop :=
  ∀ key l, idx !! key = Some l →
    NoDup l ∧ ∀ id, id ∈ l → ∃ e, byId !! id = Some e ∧ ref e f = key.

Definition compound_sound (fd ft : string) (byId : gmap string entity)
    (cidx : gmap string (gmap string string)) : Prop :=
  ∀ d m t id, cidx !! d = Some m → m !! t = Some id →
    ∃ e, byId !! id = Some e ∧ ref e fd = d ∧ ref e ft = t.

(** The single-entity add of each kind ([reduceDevices] has it inline). *)
Definition addOf (k : kind) : store k → entity → store k :=
  match k with
  | KCustomGroupPositions => addCustomGroupPosition
  | KCustomStageMemberVolumes => addCustomStageMemberVolume
  | KDevices => λ s e, reduceDevices s (DeviceAdded e)
  | KVideoTracks => addVideoTrack
  end.

Definition ids_inv (k : kind) (s : store k) : Prop :=
  ids_ok (byIdOf k s) (allIdsOf k s).

Definition store_sound (k : kind) (s : store k) : Prop :=
  (∀ f idx, (f, idx) ∈ indicesOf k s → index_sound f (byIdOf k s) idx)
  ∧ (∀ fd ft cidx, (fd, ft, cidx) ∈ compoundOf k s →
       compound_sound fd ft (byIdOf k s) cidx).

(** ** Event-sequence side conditions (decidable, so they can be run) *)

(** [admissible reduce ok s evs]: the step condition [ok] holds at every
    step of running [evs] from [s]. *)
Fixpoint admissible {S} (reduce : S → action → S) (ok : S → action → bool)
    (s : S) (evs : list action) : bool :=
  match evs with
  | [] => true
  | a :: evs => ok s a && admissible reduce ok (reduce s a) evs
  end.

(** A patch targets a stored id. *)
Definition patch_hits (k : kind) (s : store k) (a : action) : bool :=
  match patchedBy k a with
  | Some p => bool_decide (is_Some (byIdOf k s !! _id p))
  | None => true
  end.

(** The entities an action adds carry pairwise distinct ids, none of them
    stored yet. *)
Definition adds_fresh (k : kind) (s : store k) (a : action) : bool :=
  bool_decide (NoDup (_id <$> addedBy k a))
  && forallb (λ e, bool_decide (byIdOf k s !! _id e = None)) (addedBy k a).

(** A patch of a stored record leaves its parent references as they are. *)
Definition patch_keeps_refs (k : kind) (s : store k) (a : action) : bool :=
  match patchedBy k a with
  | Some p =>
      match byIdOf k s !! _id p with
      | Some old =>
          forallb (λ f, bool_decide (ref (spread (Some old) p) f = ref old f)) (refFields k)
      | None => true
      end
  | None => true
  end.

Definition index_safe (k : kind) (s : store k) (a : action) : bool :=
  adds_fresh k s a && patch_keeps_refs k s a.

(** ** useStageDevicePosition

    Coordinates are JavaScript numbers; the model uses integers, on which
    the additions of the source are exact. *)

Module Position.
Record t := mk {
  x : Z; y : Z; z : Z;
  rX : Z; rY : Z; rZ : Z;
  directivity : string;
}.
End Position.

(** [a || b] on numbers, where [a] may be [undefined]: [0] is falsy. *)
Definition num_or (a : option Z) (b : Z) : Z :=
  match a with
  | Some v => if bool_decide (v = 0) then b else v
  | None => b
  end.

(** [a || b] on strings: the empty string is falsy. *)
Definition str_or (a : option string) (b : string) : string :=
  match a with
  | Some v => if bool_decide (v = "") then b else v
  | None => b
  end.

(** The position effect: [position] is the state held by [useState]; it
    is replaced only when group, stage member and stage device are all
    available. *)
Definition useStageDevicePosition
    (group stageMember stageDevice : option Position.t)
    (customGroupPosition customStageMemberPosition customStageDevicePosition
       : option Position.t)
    (position : Position.t) : Position.t :=
  match group, stageMember, stageDevice with
  | Some group, Some stageMember, Some stageDevice =>
      {| Position.x :=
           num_or (Position.x <$> customGroupPosition) (Position.x group)
           + num_or (Position.x <$> customStageMemberPosition) (Position.x stageMember)
           + num_or (Position.x <$> customStageDevicePosition) (Position.x stageDevice);
         Position.y :=
           num_or (Position.y <$> customGroupPosition) (Position.y group)
           + num_or (Position.y <$> customStageMemberPosition) (Position.y stageMember)
           + num_or (Position.y <$> customStageDevicePosition) (Position.y stageDevice);
         Position.z :=
           num_or (Position.z <$> customGroupPosition) (Position.z group)
           + num_or (Position.z <$> customStageMemberPosition) (Position.z stageMember)
           + num_or (Position.z <$> customStageDevicePosition) (Position.z stageDevice);
         Position.rX :=
           num_or (Position.rX <$> customGroupPosition) (Position.rX group)
           + num_or (Position.rX <$> customStageMemberPosition) (Position.rX stageMember)
           + num_or (Position.rX <$> customStageDevicePosition) (Position.rX stageDevice);
         Position.rY :=
           num_or (Position.rY <$> customGroupPosition) (Position.rY group)
           + num_or (Position.rY <$> customStageMemberPosition) (Position.rY stageMember)
           + num_or (Position.rY <$> customStageDevicePosition) (Position.rY stageDevice);
         Position.rZ :=
           num_or (Position.rZ <$> customGroupPosition) (Position.rZ group)
           + num_or (Position.rZ <$> customStageMemberPosition) (Position.rZ stageMember)
           + num_or (Position.rZ <$> customStageDevicePosition) (Position.rZ stageDevice);
         Position.directivity :=
           str_or (Position.directivity <$> customGroupPosition)
                  (Position.directivity group) |}
  | _, _, _ => position
  end.

(** ** Gain effects of the audio renderers *)

Module Volume.
Record t := mk { volume : Q; muted : bool }.
End Volume.

(** Truthiness of a number: zero is falsy. *)
Definition truthy_num (q : Q) : bool := negb (Qnum q =? 0)%Z.

(** The value passed to [gainNode.gain.setValueAtTime] by the gain effect;
    the four renderers share its text up to the name of the entity. *)
Definition gainEffect (customVolume : option Volume.t) (entity : Volume.t) : Q :=
  if default false (Volume.muted <$> customVolume) then 0%Q
  else if default false (truthy_num ∘ Volume.volume <$> customVolume)
       then default 0%Q (Volume.volume <$> customVolume)
  else if Volume.muted entity then 0%Q
  else Volume.volume entity.

Inductive renderer :=
| AudioTrackRenderer
| StageDeviceRenderer
| StageMemberRenderer
| GroupRenderer.

(** [customVolume] is the listening device's override for the rendered
    entity, [entity] the audio track, stage device, stage member or group. *)
Definition rendererGain (r : renderer) (customVolume : option Volume.t)
    (entity : Volume.t) : Q :=
  match r with
  | AudioTrackRenderer => gainEffect customVolume entity
  | StageDeviceRenderer => gainEffect customVolume entity
  | StageMemberRenderer => gainEffect customVolume entity
  | GroupRenderer => gainEffect customVolume entity
  end.

(** ** useMediasoup/util.ts

    The socket is request/acknowledge: [emit(request, payload, callback)]
    sends the request and the acknowledgement later calls [callback(error,
    data)].  The server is a function of the requests it has received so
    far; a promise is a computation over the world that resolves or
    rejects. *)

Module Mediasoup.

Inductive direction := send | receive.

Record RtpCapabilities := { codecs : list string }.
Record TransportOptions := { transportOptionsId : string }.
Record ConsumerData := {
  dataId : string;
  dataProducerId : string;
  dataPaused : bool;
}.

(** [RouterRequests] with the payload sent along. *)
Inductive request :=
| GetRTPCapabilities
| CreateTransport
| ConnectTransport (transportId : string)
| CloseTransport (transportId : string)
| CreateProducer (transportId : string)
| PauseProducer (id : string)
| ResumeProducer (id : string)
| CloseProducer (id : string)
| CreateConsumer (producerId transportId : string)
| PauseConsumer (id : string)
| ResumeConsumer (id : string)
| CloseConsumer (id : string).

Global Instance request_eq_dec : EqDecision request.
Proof. solve_decision. Defined.

(** What is thrown or passed to [reject]: the server's error string, or
    an [Error] object with a message. *)
Inductive error :=
| ErrString (s : string)
| ErrObject (message : string).

(** The collaborators: how the server acknowledges each request, given
    the requests received before it, and whether [Device.load] throws. *)
Record env := {
  ackCapabilities : list request → option string * RtpCapabilities;
  ackCreateTransport : list request → option string * TransportOptions;
  ackCreateConsumer : list request → string → string → option string * ConsumerData;
  ackPlain : list request → request → option string;
  deviceLoad : RtpCapabilities → option error;
}.

(** The mediasoup-client objects, reduced to the state the helpers read
    and write. *)
Record Transport := { transportDirection : direction; transportId : string }.
Record Producer := { producerId : string; producerPaused : bool; producerClosed : bool }.
Record Consumer := {
  consumerId : string;
  consumerProducerId : string;
  consumerPaused : bool;
  consumerClosed : bool;
}.

(** The world: requests emitted on the socket so far, in order, and the
    transports the device has created and that have not been closed. *)
Record world := { sent : list request; openTransports : list Transport }.

Definition emptyWorld : world := {| sent := []; openTransports := [] |}.

(** How a promise ends: it resolves, it rejects, or it is never settled. *)
Inductive outcome (A : Type) :=
| Resolved (a : A)
| Rejected (e : error)
| Pending.
Arguments Resolved {A} a.
Arguments Rejected {A} e.
Arguments Pending {A}.

Definition Promise (A : Type) : Type := world → outcome A * world.

Definition resolve {A} (a : A) : Promise A := λ w, (Resolved a, w).
Definition reject {A} (e : error) : Promise A := λ w, (Rejected e, w).

(** [p.then(f)]: a rejection of [p] is passed on, and [f] never runs when
    [p] is never settled. *)
Definition andThen {A B} (p : Promise A) (f : A → Promise B) : Promise B :=
  λ w, match p w with
       | (Resolved a, w') => f a w'
       | (Rejected e, w') => (Rejected e, w')
       | (Pending, w') => (Pending, w')
       end.

Notation "'await' x ':=' p 'in' q" := (andThen p (λ x, q))
  (at level 10, x name, p at level 100, q at level 200, only parsing).

(** [Promise.all([p, q])]: both promises run to their end, whatever the
    other does; the result rejects with the first rejection, the
    acknowledgements being taken in the order of the requests. *)
Definition all2 {A} (p q : Promise A) : Promise (A * A) :=
  λ w, let '(r1, w1) := p w in
       let '(r2, w2) := q w1 in
       (match r1, r2 with
        | Resolved a, Resolved b => Resolved (a, b)
        | Rejected e, _ => Rejected e
        | _, Rejected e => Rejected e
        | _, _ => Pending
        end, w2).

(** An error argument is tested by truthiness: [undefined], [null] and
    the empty string mean success. *)
Definition failed (e : option string) : option string :=
  match e with
  | Some s => if bool_decide (s = "") then None else Some s
  | None => None
  end.

Definition emitted (r : request) (w : world) : world :=
  {| sent := sent w ++ [r]; openTransports := openTransports w |}.

(** What a transport handler does with the two continuations mediasoup
    hands it: [callback(a)] or [errCallback(e)]. *)
Inductive handled (A : Type) :=
| Callback (a : A)
| ErrCallback (e : option string).
Arguments Callback {A} a.
Arguments ErrCallback {A} e.

Section util.
Variable E : env.

Definition getRTPCapabilities : Promise RtpCapabilities :=
  λ w, let '(err, caps) := ackCapabilities E (sent w) in
       match failed err with
       | Some s => (Rejected (ErrObject s), emitted GetRTPCapabilities w)
       | None => (Resolved caps, emitted GetRTPCapabilities w)
       end.

(** [device.createSendTransport] / [device.createRecvTransport]
    create the transport; the handlers registered on it run only on
    later media flow. *)
Definition createWebRTCTransport (d : direction) : Promise Transport :=
  λ w, let '(err, transportOptions) := ackCreateTransport E (sent w) in
       match failed err with
       | Some s => (Rejected (ErrString s), emitted CreateTransport w)
       | None =>
           let transport :=
             {| transportDirection := d;
                transportId := transportOptionsId transportOptions |} in
           (Resolved transport,
            {| sent := sent w ++ [CreateTransport];
               openTransports := openTransports w ++ [transport] |})
       end.

Definition pauseProducer (producer : Producer) : Promise Producer :=
  λ w, match failed (ackPlain E (sent w) (PauseProducer (producerId producer))) with
       | Some s => (Rejected (ErrString s), emitted (PauseProducer (producerId producer)) w)
       | None =>
           (Resolved {| producerId := producerId producer;
                        producerPaused := true;
                        producerClosed := producerClosed producer |},
            emitted (PauseProducer (producerId producer)) w)
       end.

Definition resumeProducer (producer : Producer) : Promise Producer :=
  λ w, match failed (ackPlain E (sent w) (ResumeProducer (producerId producer))) with
       | Some s => (Rejected (ErrString s), emitted (ResumeProducer (producerId producer)) w)
       | None =>
           (Resolved {| producerId := producerId producer;
                        producerPaused := false;
                        producerClosed := producerClosed producer |},
            emitted (ResumeProducer (producerId producer)) w)
       end.

Definition stopProducer (producer : Producer) : Promise Producer :=
  λ w, match failed (ackPlain E (sent w) (CloseProducer (producerId producer))) with
       | Some s => (Rejected (ErrString s), emitted (CloseProducer (producerId producer)) w)
       | None =>
           (Resolved {| producerId := producerId producer;
                        producerPaused := producerPaused producer;
                        producerClosed := true |},
            emitted (CloseProducer (producerId producer)) w)
       end.

(** The ['connect'] handler that [createWebRTCTransport] registers on a
    transport.  [error] is the error argument of the enclosing
    create-transport acknowledgement, which the handler passes to
    [errCallback]; [transportError] is the acknowledgement of the
    connect-transport request. *)
Definition onTransportConnect (error : option string) (transport : Transport)
    : world → handled unit * world :=
  λ w, let transportError :=
         ackPlain E (sent w) (ConnectTransport (transportId transport)) in
       match failed transportError with
       | Some _ => (ErrCallback error, emitted (ConnectTransport (transportId transport)) w)
       | None => (Callback (), emitted (ConnectTransport (transportId transport)) w)
       end.

(** Whether the connect handshake of the transport named [tid] has
    succeeded: the history holds a connect-transport request for it that
    the server acknowledged without error.  [before] are the requests sent
    before those of [rest]. *)
Fixpoint connectedAfter (tid : string) (before rest : list request) : bool :=
  match rest with
  | [] => false
  | r :: rest' =>
      (bool_decide (r = ConnectTransport tid)
       && bool_decide (failed (ackPlain E before r) = None))
      || connectedAfter tid (before ++ [r]) rest'
  end.

Definition transportReady (transport : Transport) (w : world) : bool :=
  connectedAfter (transportId transport) [] (sent w).

(** mediasoup-client's [transport.consume(data)].  A transport runs its
    connect handshake on its first use, through the ['connect'] handler
    above (whose [error] is falsy, here [None]), and again on its next use
    when the handshake failed.  After [callback] it yields a running
    consumer; after [errCallback] it rejects ([None]). *)
Definition transportConsume (transport : Transport) (data : ConsumerData)
    : world → option Consumer * world :=
  λ w, let consumer :=
         {| consumerId := dataId data;
            consumerProducerId := dataProducerId data;
            consumerPaused := false;
            consumerClosed := false |} in
       if transportReady transport w then (Some consumer, w)
       else match onTransportConnect None transport w with
            | (Callback _, w') => (Some consumer, w')
            | (ErrCallback _, w') => (None, w')
            end.

(** The consumer is paused locally when the server reports it paused.  A
    rejection of [transport.consume(data)] is not caught: the promise of
    [createConsumer] is then never settled. *)
Definition createConsumer (transport : Transport) (producerId : string)
    : Promise Consumer :=
  λ w, let '(err, data) :=
         ackCreateConsumer E (sent w) producerId (transportId transport) in
       let w' := emitted (CreateConsumer producerId (transportId transport)) w in
       match failed err with
       | Some s => (Rejected (ErrString s), w')
       | None =>
           match transportConsume transport data w' with
           | (Some consumer, w'') =>
               (Resolved (if dataPaused data
                          then {| consumerId := consumerId consumer;
                                  consumerProducerId := consumerProducerId consumer;
                                  consumerPaused := true;
                                  consumerClosed := consumerClosed consumer |}
                          else consumer), w'')
           | (None, w'') => (Pending, w'')
           end
       end.

Definition resumeConsumer (consumer : Consumer) : Promise Consumer :=
  if consumerPaused consumer then
    λ w, match failed (ackPlain E (sent w) (ResumeConsumer (consumerId consumer))) with
         | Some s => (Rejected (ErrString s), emitted (ResumeConsumer (consumerId consumer)) w)
         | None =>
             (Resolved {| consumerId := consumerId consumer;
                          consumerProducerId := consumerProducerId consumer;
                          consumerPaused := false;
                          consumerClosed := consumerClosed consumer |},
              emitted (ResumeConsumer (consumerId consumer)) w)
         end
  else reject (ErrObject "Consumer is paused yet").

Definition pauseConsumer (consumer : Consumer) : Promise Consumer :=
  if negb (consumerPaused consumer) then
    λ w, match failed (ackPlain E (sent w) (PauseConsumer (consumerId consumer))) with
         | Some s => (Rejected (ErrString s), emitted (PauseConsumer (consumerId consumer)) w)
         | None =>
             (Resolved {| consumerId := consumerId consumer;
                          consumerProducerId := consumerProducerId consumer;
                          consumerPaused := true;
                          consumerClosed := consumerClosed consumer |},
              emitted (PauseConsumer (consumerId consumer)) w)
         end
  else reject (ErrObject "Consumer is not paused").

(** [await resumeConsumer(...)] mutates [localConsumer]; the resumed
    object is the one returned. *)
Definition consume (receiveTransport : Transport) (producerId : string)
    : Promise Consumer :=
  await localConsumer := createConsumer receiveTransport producerId in
  if consumerPaused localConsumer
  then (await resumed := resumeConsumer localConsumer in resolve resumed)
  else resolve localConsumer.

Definition connect : Promise (Transport * Transport) :=
  await rtpCapabilities := getRTPCapabilities in
  await loaded := (match deviceLoad E rtpCapabilities with
                   | Some e => reject e
                   | None => resolve ()
                   end) in
  await transports :=
    all2 (createWebRTCTransport send) (createWebRTCTransport receive) in
  resolve (transports.1, transports.2).
Definition closeConsumer (consumer : Consumer) : Promise Consumer :=
  λ w, match failed (ackPlain E (sent w) (CloseConsumer (consumerId consumer))) with
       | Some s => (Rejected (ErrString s), emitted (CloseConsumer (consumerId consumer)) w)
       | None =>
           (Resolved {| consumerId := consumerId consumer;
                        consumerProducerId := consumerProducerId consumer;
                        consumerPaused := consumerPaused consumer;
                        consumerClosed := true |},
            emitted (CloseConsumer (consumerId consumer)) w)
       end.

End util.

(** Whether a request tears a transport down. *)
Definition isCloseTransport (r : request) : bool :=
  match r with
  | CloseTransport _ => true
  | _ => false
  end.

End Mediasoup.

(** ** Device enumeration and refresh (useMediasoup/util.ts)

    [!==] on arrays compares object identity, so an array is a heap
    location together with its items.  Locations are handed out by a
    counter: an array created now has a location no older array has. *)

Module MediaDevices.

Record WebMediaDevice := { id : string; label : string }.

Record array := { loc : nat; items : list WebMediaDevice }.

(** A listed device that has both an id and a label. *)
Definition named (d : WebMediaDevice) : Prop := id d ≠ "" ∧ label d ≠ "".

(** [a !== b] *)
Definition strictNotEqual (a b : array) : bool := negb (loc a =? loc b)%nat.

Inductive MediaDeviceKind := videoinput | audioinput | audiooutput.

Global Instance MediaDeviceKind_eq_dec : EqDecision MediaDeviceKind.
Proof. solve_decision. Defined.

Record MediaDeviceInfo := {
  kind : MediaDeviceKind;
  deviceId : string;
  infoLabel : string;
}.

Record Enumeration := {
  enumInputAudioDevices : array;
  enumInputVideoDevices : array;
  enumOutputAudioDevices : array;
}.

(** [device.deviceId || (list.length === 1 ? 'default' : index.toString())] *)
Definition deviceIdOr (dev : MediaDeviceInfo) (sofar : list WebMediaDevice)
    (index : nat) : string :=
  if bool_decide (deviceId dev = "")
  then (if bool_decide (length sofar = 1%nat) then "default" else pretty index)
  else deviceId dev.

Definition labelOr (dev : MediaDeviceInfo) : string :=
  if bool_decide (infoLabel dev = "") then "Standard" else infoLabel dev.

(** The [forEach] of [enumerateDevices]: the three lists built so far
    (video, audio, output) and the running index. *)
Fixpoint collect (devices : list MediaDeviceInfo) (index : nat)
    (acc : list WebMediaDevice * list WebMediaDevice * list WebMediaDevice)
    : list WebMediaDevice * list WebMediaDevice * list WebMediaDevice :=
  match devices with
  | [] => acc
  | dev :: rest =>
      let '(video, audio, output) := acc in
      collect rest (S index)
        match kind dev with
        | videoinput =>
            (video ++ [{| id := deviceIdOr dev video index; label := labelOr dev |}],
             audio, output)
        | audioinput =>
            (video,
             audio ++ [{| id := deviceIdOr dev audio index; label := labelOr dev |}],
             output)
        | audiooutput =>
            (video, audio,
             output ++ [{| id := deviceIdOr dev output index; label := labelOr dev |}])
        end
  end.

(** The devices of one kind, in the order of the enumeration. *)
Definition devicesOfKind (k : MediaDeviceKind) (devices : list MediaDeviceInfo)
    : list MediaDeviceInfo :=
  filter (λ dev, kind dev = k) devices.

(** What [enumerateDevices()] resolves with where the global [navigator]
    is declared: [navigator] is [None] when its value is falsy (the
    [!navigator] branch) and [Some devices] when
    [navigator.mediaDevices.enumerateDevices()] resolves with [devices];
    [next] is the first free heap location.  The three result arrays are
    created by the call.  The cases in which the promise does not resolve
    are in [enumerateDevicesOn] below. *)
Definition enumerateDevices (navigator : option (list MediaDeviceInfo)) (next : nat)
    : Enumeration :=
  match navigator with
  | None =>
      {| enumInputAudioDevices := {| loc := next; items := [] |};
         enumInputVideoDevices := {| loc := S next; items := [] |};
         enumOutputAudioDevices := {| loc := S (S next); items := [] |} |}
  | Some devices =>
      let '(video, audio, output) := collect devices 0 ([], [], []) in
      {| enumInputAudioDevices := {| loc := S next; items := audio |};
         enumInputVideoDevices := {| loc := next; items := video |};
         enumOutputAudioDevices := {| loc := S (S next); items := output |} |}
  end.




Record MediasoupDevice := {
  device_id : string;
  inputAudioDevices : array;
  inputVideoDevices : array;
  outputAudioDevices : array;
}.

(** [ClientDevicePayloads.ChangeDevice]: the lists are optional. *)
Record ChangeDevice := {
  update_id : string;
  updateInputAudioDevices : option array;
  updateInputVideoDevices : option array;
  updateOutputAudioDevices : option array;
}.

(** The events [refreshMediaDevices] emits on the socket ([socket] tells
    whether there is one), where [enumerateDevices()] resolves: [navigator]
    is as for [enumerateDevices]. *)
Definition refreshMediaDevices (navigator : option (list MediaDeviceInfo)) (next : nat)
    (currentDevice : MediasoupDevice) (socket : bool) : list ChangeDevice :=
  if socket then
    let devices := enumerateDevices navigator next in
    let c1 := strictNotEqual (inputAudioDevices currentDevice)
                             (enumInputAudioDevices devices) in
    let c2 := strictNotEqual (inputVideoDevices currentDevice)
                             (enumInputVideoDevices devices) in
    let c3 := strictNotEqual (outputAudioDevices currentDevice)
                             (enumOutputAudioDevices devices) in
    let shouldUpdate := c1 || c2 || c3 in
    let update :=
      {| update_id := device_id currentDevice;
         updateInputAudioDevices :=
           if c1 then Some (enumInputAudioDevices devices) else None;
         updateInputVideoDevices :=
           if c2 then Some (enumInputVideoDevices devices) else None;
         updateOutputAudioDevices :=
           if c3 then Some (enumOutputAudioDevices devices) else None |} in
    if shouldUpdate then [update] else []
  else [].

(** The arrays of the last known device record were created before the
    refresh started. *)
Definition allocatedBefore (next : nat) (d : MediasoupDevice) : Prop :=
  (loc (inputAudioDevices d) < next)%nat
  ∧ (loc (inputVideoDevices d) < next)%nat
  ∧ (loc (outputAudioDevices d) < next)%nat.

(** The lists of the record and of the enumeration hold the same items. *)
Definition sameLists (d : MediasoupDevice) (e : Enumeration) : Prop :=
  items (inputAudioDevices d) = items (enumInputAudioDevices e)
  ∧ items (inputVideoDevices d) = items (enumInputVideoDevices e)
  ∧ items (outputAudioDevices d) = items (enumOutputAudioDevices e).

End MediaDevices.

(** ** Selecting the override of a listening device

    The selector shared by useStageDevicePosition and the renderers:
    [index[deviceId] && index[deviceId][targetId]
       ? byId[index[deviceId][targetId]] : undefined].
    An inner object is always truthy; the id found is tested by
    truthiness, so the empty id selects nothing. *)

Definition selectCustom (byId : gmap string entity)
    (index : gmap string (gmap string string)) (deviceId targetId : string)
    : option entity :=
  match index !! deviceId with
  | Some inner =>
      match inner !! targetId with
      | Some id => if bool_decide (id = "") then None else byId !! id
      | None => None
      end
  | None => None
  end.

Definition selectCustomGroupPosition (state : CustomGroupPositions.t)
    (deviceId groupId : string) : option entity :=
  selectCustom (CustomGroupPositions.byId state)
    (CustomGroupPositions.byDeviceAndGroup state) deviceId groupId.

Definition selectCustomStageMemberVolume (state : CustomStageMemberVolumes.t)
    (deviceId stageMemberId : string) : option entity :=
  selectCustom (CustomStageMemberVolumes.byId state)
    (CustomStageMemberVolumes.byDeviceAndStageMember state) deviceId stageMemberId.

(** The compound index of the two override stores and its selector, by
    kind. *)
Definition selectOverride (k : kind) : store k → string → string → option entity :=
  match k with
  | KCustomGroupPositions => selectCustomGroupPosition
  | KCustomStageMemberVolumes => selectCustomStageMemberVolume
  | KDevices => λ _ _ _, None
  | KVideoTracks => λ _ _ _, None
  end.

(** The field naming the overridden entity. *)
Definition targetField (k : kind) : string :=
  match k with
  | KCustomGroupPositions => "groupId"
  | KCustomStageMemberVolumes => "stageMemberId"
  | KDevices => ""
  | KVideoTracks => ""
  end.

Definition isOverrideKind (k : kind) : bool :=
  match k with
  | KCustomGroupPositions | KCustomStageMemberVolumes => true
  | KDevices | KVideoTracks => false
  end.

(** The content of a bucket: a missing bucket reads as no ids. *)
Definition bucket (index : gmap string (list string)) (key : string) : list string :=
  default [] (index !! key).

(** ** Binding a track to an audio-track node (AudioTrackRenderer)

    The effect that picks the node's source: the local producer's track
    when the audio track belongs to the listening device, the consumer's
    track otherwise.  Tracks are named by their id; a producer's track may
    be [null]. *)

Module TrackBinding.
Record sources := {
  audioProducers : gmap string (option string);
  audioConsumers : gmap string string;
}.

(** One run of the effect: [prev] is the track held by [useState]. *)
Definition bindTrack (audioTrackId audioTrackDeviceId deviceId : string)
    (src : sources) (prev : option string) : option string :=
  if bool_decide (audioTrackDeviceId = deviceId) then
    match prev, audioProducers src !! audioTrackId with
    | None, Some (Some t) => Some t
    | _, _ => prev
    end
  else
    match prev, audioConsumers src !! audioTrackId with
    | None, Some t => Some t
    | _, _ => prev
    end.

(** The effect re-run on each change of the producers and consumers. *)
Definition bindTrackOver (audioTrackId audioTrackDeviceId deviceId : string)
    (changes : list sources) (prev : option string) : option string :=
  foldl (λ prev src, bindTrack audioTrackId audioTrackDeviceId deviceId src prev)
        prev changes.
End TrackBinding.

(** ** Axes of a pose *)

Inductive axis := AxisX | AxisY | AxisZ | AxisRX | AxisRY | AxisRZ.

Definition coordinate (a : axis) (p : Position.t) : Z :=
  match a with
  | AxisX => Position.x p
  | AxisY => Position.y p
  | AxisZ => Position.z p
  | AxisRX => Position.rX p
  | AxisRY => Position.rY p
  | AxisRZ => Position.rZ p
  end.

(** ** Concrete inputs used in the examples below *)

(** A pose on the x axis only. *)
Definition poseX (x : Z) : Position.t :=
  {| Position.x := x; Position.y := 0; Position.z := 0;
     Position.rX := 0; Position.rY := 0; Position.rZ := 0;
     Position.directivity := "omni" |}.

Module Examples.
Import Mediasoup MediaDevices.

(** A server that acknowledges everything without an error, hands out
    transport "t1" first and "t2" afterwards, and reports every new
    consumer as paused. *)
Definition agreeable : env :=
  {| ackCapabilities := λ _, (None, {| codecs := ["opus"] |});
     ackCreateTransport := λ history,
       (None, {| transportOptionsId :=
                   if bool_decide (CreateTransport ∈ history) then "t2" else "t1" |});
     ackCreateConsumer := λ _ producerId _,
       (None, {| dataId := "c1"; dataProducerId := producerId; dataPaused := true |});
     ackPlain := λ _ _, None;
     deviceLoad := λ _, None |}.

(** The same server, except that the second create-transport request is
    refused. *)
Definition refusesSecondTransport : env :=
  {| ackCapabilities := ackCapabilities agreeable;
     ackCreateTransport := λ history,
       if bool_decide (CreateTransport ∈ history)
       then (Some "no more transports", {| transportOptionsId := "" |})
       else (None, {| transportOptionsId := "t1" |});
     ackCreateConsumer := ackCreateConsumer agreeable;
     ackPlain := ackPlain agreeable;
     deviceLoad := deviceLoad agreeable |}.

(** A server that refuses every connect-transport request. *)
Definition refusesConnect : env :=
  {| ackCapabilities := ackCapabilities agreeable;
     ackCreateTransport := ackCreateTransport agreeable;
     ackCreateConsumer := ackCreateConsumer agreeable;
     ackPlain := λ _ r,
       match r with
       | ConnectTransport _ => Some "dtls failed"
       | _ => None
       end;
     deviceLoad := deviceLoad agreeable |}.

Definition receiveTransport : Transport :=
  {| transportDirection := receive; transportId := "t2" |}.

Definition runningProducer : Producer :=
  {| producerId := "p"; producerPaused := false; producerClosed := false |}.

Definition pausedProducer : Producer :=
  {| producerId := "p"; producerPaused := true; producerClosed := false |}.

(** The same custom group position added twice. *)
Definition addedTwice : list action :=
  [ CustomGroupPositionAdded
      {| _id := "a"; fields := {[ "groupId" := VStr "g"; "deviceId" := VStr "d" ]} |};
    CustomGroupPositionAdded
      {| _id := "a"; fields := {[ "groupId" := VStr "g"; "deviceId" := VStr "d" ]} |} ].

(** A video track of stage member "m1" whose [stageMemberId] is patched to
    "m2" and that is then removed. *)
Definition movedThenRemoved : list action :=
  [ VideoTrackAdded {| _id := "v"; fields := {[ "stageMemberId" := VStr "m1" ]} |};
    VideoTrackChanged {| _id := "v"; fields := {[ "stageMemberId" := VStr "m2" ]} |};
    VideoTrackRemoved "v" ].

(** A video track added for stage member "m1", added again for "m2", then
    removed. *)
Definition readdedThenRemoved : list action :=
  [ VideoTrackAdded {| _id := "v"; fields := {[ "stageMemberId" := VStr "m1" ]} |};
    VideoTrackAdded {| _id := "v"; fields := {[ "stageMemberId" := VStr "m2" ]} |};
    VideoTrackRemoved "v" ].

(** A device record whose three lists are empty arrays created earlier
    (locations 0, 1 and 2). *)
Definition knownDevice : MediasoupDevice :=
  {| device_id := "dev";
     inputAudioDevices := {| loc := 0; items := [] |};
     inputVideoDevices := {| loc := 1; items := [] |};
     outputAudioDevices := {| loc := 2; items := [] |} |}.
End Examples.

(** * Properties *)

(** ** Lists: [upsert] and [without] *)

Lemma elem_of_upsert o v x : x ∈ upsert o v ↔ x = v ∨ x ∈ default [] o.
Proof.
  destruct o as [l|]; simpl.
  - case_bool_decide; [|rewrite elem_of_app, list_elem_of_singleton]; naive_solver.
  - rewrite list_elem_of_singleton. set_solver.
Qed.

Lemma NoDup_upsert o v : NoDup (default [] o) → NoDup (upsert o v).
Proof.
  destruct o as [l|]; simpl; intros Hl.
  - case_bool_decide; [done|].
    apply NoDup_app; split_and!; [done| |apply NoDup_singleton].
    intros x Hx ->%list_elem_of_singleton. done.
  - apply NoDup_singleton.
Qed.

Lemma elem_of_without o v x : x ∈ without o v ↔ x ≠ v ∧ x ∈ default [] o.
Proof.
  destruct o as [l|]; simpl.
  - by rewrite list_elem_of_filter.
  - set_solver.
Qed.

Lemma NoDup_without o v : NoDup (default [] o) → NoDup (without o v).
Proof.
  destruct o as [l|]; simpl; [apply NoDup_filter|constructor].
Qed.

Lemma elem_of_append_bucket (o : option (list string)) v x :
  x ∈ match o with Some l => l ++ [v] | None => [v] end ↔ x = v ∨ x ∈ default [] o.
Proof.
  destruct o as [l|]; simpl.
  - rewrite elem_of_app, list_elem_of_singleton. naive_solver.
  - rewrite list_elem_of_singleton. set_solver.
Qed.

Lemma NoDup_append_bucket (o : option (list string)) v :
  NoDup (default [] o) → v ∉ default [] o →
  NoDup match o with Some l => l ++ [v] | None => [v] end.
Proof.
  destruct o as [l|]; simpl; intros Hl Hv; [|apply NoDup_singleton].
  apply NoDup_app; split_and!; [done| |apply NoDup_singleton].
  intros x Hx ->%list_elem_of_singleton. done.
Qed.

(** ** [allIds] against [byId] *)

Lemma ids_ok_empty : ids_ok ∅ [].
Proof.
  split; [constructor|]. intros id. rewrite lookup_empty. split.
  - by intros ?%elem_of_nil.
  - by intros [? ?].
Qed.

Lemma ids_ok_add byId allIds id e :
  ids_ok byId allIds → ids_ok (<[id := e]> byId) (upsert (Some allIds) id).
Proof.
  intros [Hnd Hiff]. split; [by apply NoDup_upsert|].
  intros x. rewrite elem_of_upsert, lookup_insert_is_Some, Hiff. simpl.
  destruct (decide (id = x)); naive_solver.
Qed.

Lemma ids_ok_patch byId allIds id e :
  is_Some (byId !! id) → ids_ok byId allIds → ids_ok (<[id := e]> byId) allIds.
Proof.
  intros Hin [Hnd Hiff]. split; [done|].
  intros x. rewrite lookup_insert_is_Some, Hiff.
  destruct (decide (id = x)) as [->|]; naive_solver.
Qed.

Lemma ids_ok_remove byId allIds id :
  ids_ok byId allIds → ids_ok (omit (Some byId) id) (without (Some allIds) id).
Proof.
  intros [Hnd Hiff]. split; [by apply NoDup_without|].
  intros x. rewrite elem_of_without. simpl. rewrite lookup_delete_is_Some, Hiff.
  naive_solver.
Qed.

(** ** Bucket indices *)

Lemma index_sound_ok f byId idx : index_sound f byId idx → index_ok byId idx.
Proof.
  intros H key l Hl. destruct (H key l Hl) as [Hnd Hin]. split; [done|].
  intros id Hid. destruct (Hin id Hid) as (e & -> & _). by eexists.
Qed.

Lemma index_sound_free f byId idx id :
  index_sound f byId idx → byId !! id = None → index_free id idx.
Proof.
  intros H Hnone key l Hl Hid.
  destruct (H key l Hl) as [_ Hin]. destruct (Hin id Hid) as (e & He & _). congruence.
Qed.

Lemma index_sound_empty f byId : index_sound f byId ∅.
Proof. intros key l. by rewrite lookup_empty. Qed.

(** What [bucket] must satisfy for an add of [e] to keep the index sound:
    it extends the old bucket by the id of [e]. *)
Lemma index_sound_insert_bucket f byId idx e bucket :
  byId !! _id e = None →
  NoDup bucket →
  (∀ x, x ∈ bucket ↔ x = _id e ∨ x ∈ default [] (idx !! ref e f)) →
  index_sound f byId idx →
  index_sound f (<[_id e := e]> byId) (<[ref e f := bucket]> idx).
Proof.
  intros Hfresh Hnd Hiff Hs key l. rewrite lookup_insert.
  case_decide as Hk; intros Hl; simplify_eq.
  - split; [done|]. intros id [->|Hid]%Hiff.
    + exists e. by rewrite lookup_insert_eq.
    + destruct (idx !! ref e f) as [l0|] eqn:Hl0; [|by apply elem_of_nil in Hid].
      destruct (Hs _ _ Hl0) as [_ Hin]. destruct (Hin id Hid) as (e0 & He0 & Hr).
      exists e0. split; [|done].
      rewrite lookup_insert_ne; [done|]. intros <-. congruence.
  - destruct (Hs _ _ Hl) as [Hnd' Hin]. split; [done|].
    intros id Hid. destruct (Hin id Hid) as (e0 & He0 & Hr).
    exists e0. split; [|done].
    rewrite lookup_insert_ne; [done|]. intros <-. congruence.
Qed.

Lemma index_sound_bucket_NoDup f byId idx key :
  index_sound f byId idx → NoDup (default [] (idx !! key)).
Proof.
  intros Hs. destruct (idx !! key) as [l|] eqn:Hl; [|constructor].
  by destruct (Hs _ _ Hl).
Qed.

Lemma index_sound_bucket_fresh f byId idx key id :
  index_sound f byId idx → byId !! id = None → id ∉ default [] (idx !! key).
Proof.
  intros Hs Hnone. destruct (idx !! key) as [l|] eqn:Hl; [|apply not_elem_of_nil].
  by apply (index_sound_free f byId idx id Hs Hnone key l).
Qed.

Lemma index_sound_append f byId idx e :
  byId !! _id e = None →
  index_sound f byId idx →
  index_sound f (<[_id e := e]> byId)
    (<[ref e f := match idx !! ref e f with
                  | Some l => l ++ [_id e]
                  | None => [_id e]
                  end]> idx).
Proof.
  intros Hfresh Hs. apply index_sound_insert_bucket; [done| | |done].
  - apply NoDup_append_bucket; eauto using index_sound_bucket_NoDup, index_sound_bucket_fresh.
  - intros x. apply elem_of_append_bucket.
Qed.

Lemma index_sound_upsert f byId idx e :
  byId !! _id e = None →
  index_sound f byId idx →
  index_sound f (<[_id e := e]> byId) (<[ref e f := upsert (idx !! ref e f) (_id e)]> idx).
Proof.
  intros Hfresh Hs. apply index_sound_insert_bucket; [done| | |done].
  - apply NoDup_upsert; eauto using index_sound_bucket_NoDup.
  - intros x. apply elem_of_upsert.
Qed.

Lemma index_sound_patch f byId idx id e' :
  (∀ old, byId !! id = Some old → ref e' f = ref old f) →
  index_sound f byId idx →
  index_sound f (<[id := e']> byId) idx.
Proof.
  intros Hkeep Hs key l Hl. destruct (Hs _ _ Hl) as [Hnd Hin]. split; [done|].
  intros x Hx. destruct (Hin x Hx) as (e0 & He0 & Hr).
  destruct (decide (id = x)) as [->|Hne].
  - exists e'. rewrite lookup_insert_eq. split; [done|]. by rewrite (Hkeep _ He0).
  - exists e0. by rewrite lookup_insert_ne.
Qed.

Lemma index_sound_remove f byId idx id stored :
  byId !! id = Some stored →
  index_sound f byId idx →
  index_sound f (omit (Some byId) id)
    (<[ref stored f := without (idx !! ref stored f) id]> idx).
Proof.
  intros Hst Hs key l. simpl. rewrite lookup_insert.
  case_decide as Hk; intros Hl; simplify_eq.
  - split; [apply NoDup_without; eauto using index_sound_bucket_NoDup|].
    intros x [Hne Hx]%elem_of_without.
    destruct (idx !! ref stored f) as [l0|] eqn:Hl0; [|by apply elem_of_nil in Hx].
    destruct (Hs _ _ Hl0) as [_ Hin]. destruct (Hin x Hx) as (e0 & He0 & Hr).
    exists e0. by rewrite lookup_delete_ne.
  - destruct (Hs _ _ Hl) as [Hnd Hin]. split; [done|].
    intros x Hx. destruct (Hin x Hx) as (e0 & He0 & Hr).
    exists e0. split; [|done]. rewrite lookup_delete_ne; [done|].
    intros <-. congruence.
Qed.

(** ** Compound indices *)

Lemma compound_sound_ok fd ft byId cidx :
  compound_sound fd ft byId cidx → compound_ok byId cidx.
Proof.
  intros H d m t id Hm Ht. destruct (H d m t id Hm Ht) as (e & -> & _). by eexists.
Qed.

Lemma compound_sound_free fd ft byId cidx id :
  compound_sound fd ft byId cidx → byId !! id = None → compound_free id cidx.
Proof.
  intros H Hnone d m t Hm Ht. destruct (H d m t id Hm Ht) as (e & He & _). congruence.
Qed.

Lemma compound_sound_empty fd ft byId : compound_sound fd ft byId ∅.
Proof. intros d m t id. by rewrite lookup_empty. Qed.

Lemma compound_sound_add fd ft byId cidx e :
  byId !! _id e = None →
  compound_sound fd ft byId cidx →
  compound_sound fd ft (<[_id e := e]> byId)
    (<[ref e fd := <[ref e ft := _id e]> (default ∅ (cidx !! ref e fd))]> cidx).
Proof.
  intros Hfresh Hs d m t id. rewrite lookup_insert.
  assert (Hold : ∀ d0 m0 t0 id0, cidx !! d0 = Some m0 → m0 !! t0 = Some id0 →
            ∃ e0, <[_id e := e]> byId !! id0 = Some e0 ∧ ref e0 fd = d0 ∧ ref e0 ft = t0).
  { intros d0 m0 t0 id0 Hm0 Ht0. destruct (Hs _ _ _ _ Hm0 Ht0) as (e0 & He0 & Hr).
    exists e0. split; [|done]. rewrite lookup_insert_ne; [done|]. intros <-. congruence. }
  case_decide as Hd; intros Hm; simplify_eq; [|by eauto].
  rewrite lookup_insert. case_decide as Ht; intros Hid; simplify_eq.
  - exists e. by rewrite lookup_insert_eq.
  - destruct (cidx !! ref e fd) as [m0|] eqn:Hm0; simpl in Hid; [by eauto|].
    by rewrite lookup_empty in Hid.
Qed.

Lemma compound_sound_patch fd ft byId cidx id e' :
  (∀ old, byId !! id = Some old → ref e' fd = ref old fd ∧ ref e' ft = ref old ft) →
  compound_sound fd ft byId cidx →
  compound_sound fd ft (<[id := e']> byId) cidx.
Proof.
  intros Hkeep Hs d m t x Hm Ht. destruct (Hs _ _ _ _ Hm Ht) as (e0 & He0 & Hd & Hr).
  destruct (decide (id = x)) as [->|Hne].
  - exists e'. rewrite lookup_insert_eq. destruct (Hkeep _ He0) as [-> ->]. done.
  - exists e0. by rewrite lookup_insert_ne.
Qed.

Lemma compound_sound_remove fd ft byId cidx id stored :
  byId !! id = Some stored →
  compound_sound fd ft byId cidx →
  compound_sound fd ft (omit (Some byId) id)
    (<[ref stored fd := omit (cidx !! ref stored fd) (ref stored ft)]> cidx).
Proof.
  intros Hst Hs d m t x. simpl. rewrite lookup_insert.
  assert (Hold : ∀ d0 m0 t0 x0, cidx !! d0 = Some m0 → m0 !! t0 = Some x0 →
            (d0, t0) ≠ (ref stored fd, ref stored ft) →
            ∃ e0, delete id byId !! x0 = Some e0 ∧ ref e0 fd = d0 ∧ ref e0 ft = t0).
  { intros d0 m0 t0 x0 Hm0 Ht0 Hne. destruct (Hs _ _ _ _ Hm0 Ht0) as (e0 & He0 & Hd & Hr).
    exists e0. split; [|done]. rewrite lookup_delete_ne; [done|].
    intros <-. simplify_eq. }
  case_decide as Hd; intros Hm; simplify_eq.
  - destruct (cidx !! ref stored fd) as [m0|] eqn:Hm0; simpl; [|by rewrite lookup_empty].
    rewrite lookup_delete. case_decide as Ht; [done|]. intros Hx.
    eapply Hold; [done..|]. congruence.
  - intros Hx. eapply Hold; [done..|]. congruence.
Qed.

(** ** The reducers keep [allIds] in step with [byId] *)

Lemma forEach_foldl {S} (f : S → entity → S) (o : option (list entity)) (s : S) :
  forEach f o s = foldl f s (default [] o).
Proof. by destruct o. Qed.

Lemma ids_inv_initial k : ids_inv k (initial k).
Proof. destruct k; apply ids_ok_empty. Qed.

Lemma ids_inv_addOf k s e : ids_inv k s → ids_inv k (addOf k s e).
Proof. destruct k; apply ids_ok_add. Qed.

Lemma ids_inv_foldl_addOf k es s : ids_inv k s → ids_inv k (foldl (addOf k) s es).
Proof.
  revert s. induction es as [|e es IH]; intros s Hs; [done|].
  simpl. apply IH. by apply ids_inv_addOf.
Qed.

Lemma ids_inv_step k s a :
  patch_hits k s a = true → ids_inv k s → ids_inv k (reduce k s a).
Proof.
  unfold patch_hits.
  destruct k, a; simpl; intros Hhit Hs;
    try done;
    try apply ids_ok_empty;
    try (rewrite forEach_foldl;
         first [ apply (ids_inv_foldl_addOf KCustomGroupPositions)
               | apply (ids_inv_foldl_addOf KCustomStageMemberVolumes)
               | apply (ids_inv_foldl_addOf KVideoTracks) ]; done);
    try (by apply ids_ok_add);
    try (apply bool_decide_eq_true in Hhit; by apply ids_ok_patch);
    try (by apply ids_ok_remove).
  - destruct (CustomGroupPositions.byId s !! payload); [by apply ids_ok_remove|done].
  - destruct (CustomStageMemberVolumes.byId s !! payload); [by apply ids_ok_remove|done].
  - destruct (VideoTracks.byId s !! payload); [by apply ids_ok_remove|done].
Qed.

Lemma admissible_take {S} (reduce : S → action → S) ok s evs n :
  admissible reduce ok s evs = true → admissible reduce ok s (take n evs) = true.
Proof.
  revert s n. induction evs as [|a evs IH]; intros s [|n]; simpl; try done.
  intros [Ha Hevs]%andb_true_iff. rewrite Ha. simpl. by apply IH.
Qed.

Lemma ids_inv_run k evs s :
  admissible (reduce k) (patch_hits k) s evs = true →
  ids_inv k s → ids_inv k (run (reduce k) s evs).
Proof.
  revert s. induction evs as [|a evs IH]; intros s; simpl; [done|].
  intros [Ha Hevs]%andb_true_iff Hs. apply IH; [done|]. by apply ids_inv_step.
Qed.

(** ** The reducers keep the indices sound *)

(** Splits a membership in an explicit list into its cases. *)
Ltac list_cases H :=
  repeat (apply elem_of_cons in H as [H|H]; [simplify_eq|]);
  try (by apply elem_of_nil in H).

(** Opens a [store_sound] goal into one goal per index of the store. *)
Ltac sound_cases :=
  split;
  [ let H := fresh "Hin" in intros ? ? H; simpl in H; list_cases H
  | let H := fresh "Hin" in intros ? ? ? H; simpl in H; list_cases H ].

(** Reads the soundness of the index on field [f] off a [store_sound]
    hypothesis. *)
Ltac use_sound Hs :=
  first [ eapply (proj1 Hs); simpl; set_solver
        | eapply (proj2 Hs); simpl; set_solver ].

Lemma store_sound_initial k : store_sound k (initial k).
Proof.
  destruct k; sound_cases; simpl;
    auto using index_sound_empty, compound_sound_empty.
Qed.

Lemma byIdOf_addOf_ne k s e x :
  x ≠ _id e → byIdOf k (addOf k s e) !! x = byIdOf k s !! x.
Proof. intros Hne. destruct k; simpl; by rewrite lookup_insert_ne. Qed.

Lemma store_sound_addOf k s e :
  byIdOf k s !! _id e = None → store_sound k s → store_sound k (addOf k s e).
Proof.
  intros Hfresh Hs. destruct k; sound_cases; simpl in *;
    first [ apply index_sound_append; [done|use_sound Hs]
          | apply index_sound_upsert; [done|use_sound Hs]
          | apply compound_sound_add; [done|use_sound Hs] ].
Qed.

Lemma store_sound_foldl_addOf k es s :
  NoDup (_id <$> es) →
  Forall (λ e, byIdOf k s !! _id e = None) es →
  store_sound k s → store_sound k (foldl (addOf k) s es).
Proof.
  revert s. induction es as [|e es IH]; intros s Hnd Hfresh Hs; [done|].
  simpl in *. apply NoDup_cons in Hnd as [Hne Hnd].
  apply Forall_cons in Hfresh as [He Hes].
  apply IH; [done| |by apply store_sound_addOf].
  apply Forall_forall. intros e' He'.
  rewrite byIdOf_addOf_ne.
  - by eapply Forall_forall in Hes.
  - intros Heq. apply Hne. rewrite <- Heq. apply list_elem_of_fmap. by exists e'.
Qed.

Lemma adds_fresh_spec k s a :
  adds_fresh k s a = true →
  NoDup (_id <$> addedBy k a) ∧ Forall (λ e, byIdOf k s !! _id e = None) (addedBy k a).
Proof.
  unfold adds_fresh. intros [Hnd Hall]%andb_true_iff.
  apply bool_decide_eq_true in Hnd. split; [done|].
  apply Forall_forall. intros e He.
  rewrite forallb_forall in Hall. apply list_elem_of_In, Hall in He.
  by apply bool_decide_eq_true in He.
Qed.

Lemma store_sound_patch k s p :
  patch_keeps_refs k s (changedEvent k p) = true →
  store_sound k s → store_sound k (reduce k s (changedEvent k p)).
Proof.
  unfold patch_keeps_refs. intros Hkeep Hs.
  assert (Hrefs : ∀ f old, f ∈ refFields k → byIdOf k s !! _id p = Some old →
            ref (spread (byIdOf k s !! _id p) p) f = ref old f).
  { intros f old Hf Hold. replace (patchedBy k (changedEvent k p)) with (Some p) in Hkeep
      by (by destruct k).
    rewrite Hold in Hkeep |- *. rewrite forallb_forall in Hkeep.
    apply list_elem_of_In, Hkeep in Hf. by apply bool_decide_eq_true in Hf. }
  clear Hkeep.
  destruct k; sound_cases; simpl in *;
    first [ apply index_sound_patch;
              [intros old Hold; apply Hrefs; [set_solver|done] | use_sound Hs]
          | apply compound_sound_patch;
              [intros old Hold; split; (apply Hrefs; [set_solver|done]) | use_sound Hs] ].
Qed.

Lemma store_sound_remove k s id :
  store_sound k s → store_sound k (reduce k s (removedEvent k id)).
Proof.
  intros Hs. destruct k; simpl in *.
  - destruct (CustomGroupPositions.byId s !! id) as [stored|] eqn:Hst; [|done].
    sound_cases; simpl;
      first [ apply index_sound_remove; [done|use_sound Hs]
            | apply compound_sound_remove; [done|use_sound Hs] ].
  - destruct (CustomStageMemberVolumes.byId s !! id) as [stored|] eqn:Hst; [|done].
    sound_cases; simpl;
      first [ apply index_sound_remove; [done|use_sound Hs]
            | apply compound_sound_remove; [done|use_sound Hs] ].
  - sound_cases.
  - destruct (VideoTracks.byId s !! id) as [stored|] eqn:Hst; [|done].
    sound_cases; simpl; (apply index_sound_remove; [done|use_sound Hs]).
Qed.

Lemma store_sound_step k s a :
  index_safe k s a = true → store_sound k s → store_sound k (reduce k s a).
Proof.
  unfold index_safe. intros [Hadd Hpatch]%andb_true_iff Hs.
  apply adds_fresh_spec in Hadd as [Hnd Hfresh].
  destruct k, a;
    try exact Hs;
    try apply (store_sound_initial KCustomGroupPositions);
    try apply (store_sound_initial KCustomStageMemberVolumes);
    try apply (store_sound_initial KDevices);
    try apply (store_sound_initial KVideoTracks);
    try (unfold reduce, reduceCustomGroupPositions, reduceCustomStageMemberVolumes,
           reduceVideoTracks; rewrite forEach_foldl;
         first [ apply (store_sound_foldl_addOf KCustomGroupPositions)
               | apply (store_sound_foldl_addOf KCustomStageMemberVolumes)
               | apply (store_sound_foldl_addOf KVideoTracks) ]; done);
    try (first [ apply (store_sound_addOf KCustomGroupPositions)
               | apply (store_sound_addOf KCustomStageMemberVolumes)
               | apply (store_sound_addOf KVideoTracks) ];
         [by apply Forall_cons in Hfresh as [? _]|done]);
    try (first [ apply (store_sound_patch KCustomGroupPositions)
               | apply (store_sound_patch KCustomStageMemberVolumes)
               | apply (store_sound_patch KDevices)
               | apply (store_sound_patch KVideoTracks) ]; done);
    try (first [ apply (store_sound_remove KCustomGroupPositions)
               | apply (store_sound_remove KCustomStageMemberVolumes)
               | apply (store_sound_remove KDevices)
               | apply (store_sound_remove KVideoTracks) ]; done);
    try (by sound_cases).
Qed.

Lemma store_sound_run k evs s :
  admissible (reduce k) (index_safe k) s evs = true →
  store_sound k s → store_sound k (run (reduce k) s evs).
Proof.
  revert s. induction evs as [|a evs IH]; intros s; simpl; [done|].
  intros [Ha Hevs]%andb_true_iff Hs. apply IH; [done|]. by apply store_sound_step.
Qed.

Lemma removed_not_stored k s id : byIdOf k (reduce k s (removedEvent k id)) !! id = None.
Proof.
  destruct k; simpl.
  - destruct (CustomGroupPositions.byId s !! id) eqn:E; simpl; [apply lookup_delete_eq|done].
  - destruct (CustomStageMemberVolumes.byId s !! id) eqn:E; simpl; [apply lookup_delete_eq|done].
  - apply lookup_delete_eq.
  - destruct (VideoTracks.byId s !! id) eqn:E; simpl; [apply lookup_delete_eq|done].
Qed.

Lemma run_snoc {S} (reduce : S → action → S) s evs a :
  run reduce s (evs ++ [a]) = reduce (run reduce s evs) a.
Proof. unfold run. by rewrite foldl_app. Qed.

Lemma spread_None p : spread None p = p.
Proof. destruct p as [i fs]. unfold spread. simpl. by rewrite (right_id_L ∅ (∪)). Qed.

Lemma lookup_spread old p f :
  fields (spread (Some old) p) !! f
  = match fields p !! f with
    | Some v => Some v
    | None => fields old !! f
    end.
Proof.
  simpl. destruct (fields p !! f) as [v|] eqn:Hp.
  - by apply lookup_union_Some_l.
  - by rewrite lookup_union_r.
Qed.

(** ** Claims about the store *)

(** C2, as stated, fails: a 'changed' event for an id that is not stored
    writes a [byId] entry and leaves [allIds] alone, so after this single
    event on the initial video-track store [allIds] no longer lists the
    keys of [byId]. *)
Lemma allIds_misses_patched_unknown_id :
  ¬ ids_ok
      (VideoTracks.byId
         (run reduceVideoTracks initialVideoTracks
            [VideoTrackChanged {| _id := "a"; fields := {[ "muted" := VBool true ]} |}]))
      (VideoTracks.allIds
         (run reduceVideoTracks initialVideoTracks
            [VideoTrackChanged {| _id := "a"; fields := {[ "muted" := VBool true ]} |}])).
Proof.
  intros [_ Hiff]. simpl in Hiff.
  assert (Hin : "a" ∈ @nil string); [|by apply elem_of_nil in Hin].
  apply Hiff. rewrite lookup_insert_eq. by eexists.
Qed.

(** C2 (amended): for every entity kind and every sequence of store events
    (bulk join, added, changed, removed, reset, anything else) from the
    initial state in which every 'changed' event targets an id that is in
    [byId] when it arrives, after every step [allIds] has no duplicates and
    contains exactly the keys of [byId]. *)
Theorem allIds_lists_byId_keys (k : kind) (evs : list action) (n : nat) :
  admissible (reduce k) (patch_hits k) (initial k) evs = true →
  let s := run (reduce k) (initial k) (take n evs) in
  NoDup (allIdsOf k s) ∧ ∀ id, id ∈ allIdsOf k s ↔ is_Some (byIdOf k s !! id).
Proof.
  intros Hadm. apply (ids_inv_run k).
  - by apply admissible_take.
  - apply ids_inv_initial.
Qed.

Lemma allIds_lists_byId_keys_witness :
  let evs :=
    [ StageJoined {| customGroupPositions := None; customStageMemberVolumes := None;
                     videoTracks :=
                       Some [ {| _id := "v1"; fields := {[ "stageId" := VStr "s" ]} |};
                              {| _id := "v2"; fields := {[ "stageId" := VStr "s" ]} |} ] |};
      VideoTrackChanged {| _id := "v1"; fields := {[ "muted" := VBool true ]} |};
      VideoTrackAdded {| _id := "v2"; fields := {[ "stageId" := VStr "s" ]} |};
      VideoTrackRemoved "v1" ] in
  admissible (reduce KVideoTracks) (patch_hits KVideoTracks) (initial KVideoTracks) evs = true
  ∧ (NoDup (allIdsOf KVideoTracks (run (reduce KVideoTracks) (initial KVideoTracks) (take 4 evs)))
     ∧ ∀ id, id ∈ allIdsOf KVideoTracks
                    (run (reduce KVideoTracks) (initial KVideoTracks) (take 4 evs))
             ↔ is_Some (byIdOf KVideoTracks
                          (run (reduce KVideoTracks) (initial KVideoTracks) (take 4 evs)) !! id)).
Proof.
  split; [vm_compute; reflexivity|].
  apply (allIds_lists_byId_keys KVideoTracks _ 4). vm_compute; reflexivity.
Defined.

(** C5, as stated, fails: on the initial custom-group-position store a
    'changed' event for the unknown id "a" does not leave the store
    unchanged. *)
Lemma patch_unknown_id_changes_store :
  reduceCustomGroupPositions initialCustomGroupPositions
    (CustomGroupPositionChanged {| _id := "a"; fields := {[ "x" := VNum 3 ]} |})
  ≠ initialCustomGroupPositions.
Proof.
  intros Heq. apply (f_equal (λ s, CustomGroupPositions.byId s !! "a")) in Heq.
  simpl in Heq. by rewrite lookup_insert_eq in Heq.
Qed.

(** C5 (amended): for every entity kind and every state, a 'changed' event
    stores under its id the shallow merge of the payload over the record
    already there (the payload's fields win, the other fields are kept);
    when the id is not present in [byId] the payload alone is stored as a
    new record, so the store is not left unchanged.  [allIds] stays as it
    was in both cases. *)
Theorem patch_merges_or_inserts (k : kind) (s : store k) (p : entity) :
  let s' := reduce k s (changedEvent k p) in
  match byIdOf k s !! _id p with
  | Some old =>
      ∃ merged, byIdOf k s' !! _id p = Some merged
                ∧ _id merged = _id p
                ∧ ∀ f, fields merged !! f
                       = match fields p !! f with
                         | Some v => Some v
                         | None => fields old !! f
                         end
  | None => byIdOf k s' !! _id p = Some p ∧ s' ≠ s
  end
  ∧ allIdsOf k s' = allIdsOf k s.
Proof.
  intros s'.
  assert (Hs' : byIdOf k s' !! _id p = Some (spread (byIdOf k s !! _id p) p)).
  { subst s'. destruct k; simpl; apply lookup_insert_eq. }
  split; [|by destruct k].
  destruct (byIdOf k s !! _id p) as [old|] eqn:Hold.
  - exists (spread (Some old) p). split_and!; [done|done|]. intros f. apply lookup_spread.
  - rewrite spread_None in Hs'. split; [done|].
    intros Heq. rewrite Heq in Hs'. congruence.
Qed.

(** C10: for every entity kind and every 'changed' event, whatever the
    payload holds (parent-reference fields included), the event changes
    nothing but the [byId] entry of its id: [allIds], every bucket index
    and every compound index are the same afterwards, and so is every other
    [byId] entry. *)
Theorem patch_frames_indices (k : kind) (s : store k) (p : entity) :
  let s' := reduce k s (changedEvent k p) in
  allIdsOf k s' = allIdsOf k s
  ∧ indicesOf k s' = indicesOf k s
  ∧ compoundOf k s' = compoundOf k s
  ∧ ∀ id, id ≠ _id p → byIdOf k s' !! id = byIdOf k s !! id.
Proof.
  intros s'. subst s'. destruct k; simpl; split_and!; try done;
    intros id Hne; by rewrite lookup_insert_ne.
Qed.

(** C8, as stated, fails.  Adding the same custom group position twice
    puts its id twice in its [byGroup] bucket (["a"; "a"]).  A video track
    whose [stageMemberId] was patched from "m1" to "m2", or that was added
    again under "m2", is removed from the bucket of "m2" only: after its
    removal the bucket of "m1" still holds its id, which is no key of
    [byId] any more. *)
Lemma index_buckets_can_break :
  ¬ index_ok
      (CustomGroupPositions.byId
         (run reduceCustomGroupPositions initialCustomGroupPositions Examples.addedTwice))
      (CustomGroupPositions.byGroup
         (run reduceCustomGroupPositions initialCustomGroupPositions Examples.addedTwice))
  ∧ (last Examples.movedThenRemoved = Some (VideoTrackRemoved "v")
     ∧ ¬ index_free "v"
           (VideoTracks.byStageMember
              (run reduceVideoTracks initialVideoTracks Examples.movedThenRemoved))
     ∧ ¬ index_ok
           (VideoTracks.byId
              (run reduceVideoTracks initialVideoTracks Examples.movedThenRemoved))
           (VideoTracks.byStageMember
              (run reduceVideoTracks initialVideoTracks Examples.movedThenRemoved)))
  ∧ (last Examples.readdedThenRemoved = Some (VideoTrackRemoved "v")
     ∧ ¬ index_free "v"
           (VideoTracks.byStageMember
              (run reduceVideoTracks initialVideoTracks Examples.readdedThenRemoved))).
Proof.
  assert (Hdup : CustomGroupPositions.byGroup
                   (run reduceCustomGroupPositions initialCustomGroupPositions
                      Examples.addedTwice) !! "g" = Some ["a"; "a"])
    by (vm_compute; reflexivity).
  assert (Hmoved : VideoTracks.byStageMember
                     (run reduceVideoTracks initialVideoTracks Examples.movedThenRemoved)
                   !! "m1" = Some ["v"])
    by (vm_compute; reflexivity).
  assert (Hgone : VideoTracks.byId
                    (run reduceVideoTracks initialVideoTracks Examples.movedThenRemoved)
                  !! "v" = None)
    by (vm_compute; reflexivity).
  assert (Hreadded : VideoTracks.byStageMember
                       (run reduceVideoTracks initialVideoTracks Examples.readdedThenRemoved)
                     !! "m1" = Some ["v"])
    by (vm_compute; reflexivity).
  split_and!.
  - intros Hok. destruct (Hok _ _ Hdup) as [Hnd _].
    apply NoDup_cons in Hnd as [Hnotin _]. apply Hnotin. by left.
  - reflexivity.
  - intros Hfree. apply (Hfree _ _ Hmoved). by left.
  - intros Hok. destruct (Hok _ _ Hmoved) as [_ Hin].
    destruct (Hin "v") as [e He]; [by left|]. rewrite Hgone in He. discriminate.
  - reflexivity.
  - intros Hfree. apply (Hfree _ _ Hreadded). by left.
Qed.

(** C8 (amended): for every entity kind and every sequence of events from
    the initial state in which no entity is added under an id that is
    already stored (the ids of one bulk join being pairwise distinct) and
    no 'changed' event alters a parent-reference field of a stored record,
    after every step every bucket of every bucket index is duplicate-free
    and holds keys of [byId] only, every id a compound index maps to is a
    key of [byId], and when the step was the removal of an id, no bucket
    and no compound index holds that id any more. *)
Theorem indices_hold_stored_ids_once (k : kind) (evs : list action) (n : nat) :
  admissible (reduce k) (index_safe k) (initial k) evs = true →
  let s := run (reduce k) (initial k) (take n evs) in
  (∀ f idx, (f, idx) ∈ indicesOf k s → index_ok (byIdOf k s) idx)
  ∧ (∀ fd ft cidx, (fd, ft, cidx) ∈ compoundOf k s → compound_ok (byIdOf k s) cidx)
  ∧ (∀ id, last (take n evs) = Some (removedEvent k id) →
       (∀ f idx, (f, idx) ∈ indicesOf k s → index_free id idx)
       ∧ (∀ fd ft cidx, (fd, ft, cidx) ∈ compoundOf k s → compound_free id cidx)).
Proof.
  intros Hadm s.
  assert (Hs : store_sound k s).
  { apply store_sound_run; [by apply admissible_take|apply store_sound_initial]. }
  destruct Hs as [Hidx Hcidx]. split_and!.
  - intros f idx Hin. eapply index_sound_ok; eauto.
  - intros fd ft cidx Hin. eapply compound_sound_ok; eauto.
  - intros id Hlast.
    assert (Hgone : byIdOf k s !! id = None).
    { subst s. destruct (take n evs) as [|a l] eqn:Hl using rev_ind; [done|].
      rewrite last_snoc in Hlast. simplify_eq. rewrite run_snoc.
      apply removed_not_stored. }
    split.
    + intros f idx Hin. eapply index_sound_free; eauto.
    + intros fd ft cidx Hin. eapply compound_sound_free; eauto.
Qed.

Lemma indices_hold_stored_ids_once_witness :
  let evs :=
    [ StageJoined
        {| customGroupPositions :=
             Some [ {| _id := "a";
                       fields := {[ "groupId" := VStr "g"; "deviceId" := VStr "d" ]} |};
                    {| _id := "b";
                       fields := {[ "groupId" := VStr "g"; "deviceId" := VStr "e" ]} |} ];
           customStageMemberVolumes := None;
           videoTracks := None |};
      CustomGroupPositionChanged {| _id := "a"; fields := {[ "x" := VNum 3 ]} |};
      CustomGroupPositionRemoved "a" ] in
  let s := run (reduce KCustomGroupPositions) (initial KCustomGroupPositions) (take 3 evs) in
  admissible (reduce KCustomGroupPositions) (index_safe KCustomGroupPositions)
    (initial KCustomGroupPositions) evs = true
  ∧ ((∀ f idx, (f, idx) ∈ indicesOf KCustomGroupPositions s →
        index_ok (byIdOf KCustomGroupPositions s) idx)
     ∧ (∀ fd ft cidx, (fd, ft, cidx) ∈ compoundOf KCustomGroupPositions s →
          compound_ok (byIdOf KCustomGroupPositions s) cidx)
     ∧ (∀ id, last (take 3 evs) = Some (removedEvent KCustomGroupPositions id) →
          (∀ f idx, (f, idx) ∈ indicesOf KCustomGroupPositions s → index_free id idx)
          ∧ (∀ fd ft cidx, (fd, ft, cidx) ∈ compoundOf KCustomGroupPositions s →
               compound_free id cidx))).
Proof.
  split; [vm_compute; reflexivity|].
  apply (indices_hold_stored_ids_once KCustomGroupPositions _ 3). vm_compute; reflexivity.
Defined.

(** ** Position resolution *)

Lemma num_or_nonzero v b : v ≠ 0 → num_or (Some v) b = v.
Proof. intros Hv. unfold num_or. by rewrite bool_decide_eq_false_2. Qed.

(** With group, stage member and stage device available, the resolved x is
    the sum of the three levels, each level contributing its override when
    there is one and it is not zero, and its base value otherwise. *)
Lemma resolved_x_sum g m d cg cm cd pos :
  Position.x (useStageDevicePosition (Some g) (Some m) (Some d) cg cm cd pos)
  = num_or (Position.x <$> cg) (Position.x g)
    + num_or (Position.x <$> cm) (Position.x m)
    + num_or (Position.x <$> cd) (Position.x d).
Proof. reflexivity. Qed.

(** C1 at its own example.  Group x=10, stage member x=5, stage device
    x=2: without overrides the resolved x is 17, and a group override with
    x=3 replaces the group term (10 = 3 + 5 + 2); but a group override with
    x=0 is dropped by [||] and the resolved x is 17 again, where the claim
    says 7. *)
Theorem zero_override_falls_back_to_base :
  Position.x (useStageDevicePosition (Some (poseX 10)) (Some (poseX 5)) (Some (poseX 2))
                None None None (poseX 0)) = 17
  ∧ Position.x (useStageDevicePosition (Some (poseX 10)) (Some (poseX 5)) (Some (poseX 2))
                  (Some (poseX 3)) None None (poseX 0)) = 10
  ∧ Position.x (useStageDevicePosition (Some (poseX 10)) (Some (poseX 5)) (Some (poseX 2))
                  (Some (poseX 0)) None None (poseX 0)) = 17.
Proof. split_and!; reflexivity. Qed.

(** ** Gain resolution *)

(** The cascade of the gain effect, step by step, in each of the four
    renderers: a muted override silences; otherwise an override volume that
    is truthy (not [0]) is the gain, whatever the entity's own mute and
    volume; otherwise the entity's own mute silences; otherwise the gain is
    the entity's own volume. *)
Lemma gain_follows_precedence (r : renderer) (customVolume : option Volume.t)
    (entity : Volume.t) :
  (∀ cv, customVolume = Some cv → Volume.muted cv = true →
         rendererGain r customVolume entity = 0%Q)
  ∧ (∀ cv, customVolume = Some cv → Volume.muted cv = false →
           truthy_num (Volume.volume cv) = true →
           rendererGain r customVolume entity = Volume.volume cv)
  ∧ ((customVolume = None
      ∨ ∃ cv, customVolume = Some cv ∧ Volume.muted cv = false
              ∧ truthy_num (Volume.volume cv) = false) →
     (Volume.muted entity = true → rendererGain r customVolume entity = 0%Q)
     ∧ (Volume.muted entity = false →
        rendererGain r customVolume entity = Volume.volume entity))
  ∧ (∀ v m, rendererGain r (Some {| Volume.volume := v; Volume.muted := true |})
              {| Volume.volume := 8 # 10; Volume.muted := m |} = 0%Q).
Proof.
  split_and!.
  - intros cv -> Hm. destruct r; unfold rendererGain, gainEffect; simpl; by rewrite Hm.
  - intros cv -> Hm Hv. destruct r; unfold rendererGain, gainEffect; simpl;
      by rewrite Hm, Hv.
  - intros Hcv.
    assert (Hg : rendererGain r customVolume entity
                 = if Volume.muted entity then 0%Q else Volume.volume entity).
    { destruct Hcv as [->|(cv & -> & Hm & Hv)];
        destruct r; unfold rendererGain, gainEffect; simpl; try done; by rewrite Hm, Hv. }
    rewrite Hg. split; by intros ->.
  - intros v m. by destruct r.
Qed.

Lemma gain_follows_precedence_witness :
  rendererGain GroupRenderer (Some {| Volume.volume := 1 # 2; Volume.muted := true |})
    {| Volume.volume := 8 # 10; Volume.muted := false |} = 0%Q
  ∧ rendererGain AudioTrackRenderer (Some {| Volume.volume := 1 # 2; Volume.muted := false |})
      {| Volume.volume := 8 # 10; Volume.muted := true |} = (1 # 2)%Q
  ∧ rendererGain StageMemberRenderer None
      {| Volume.volume := 8 # 10; Volume.muted := false |} = (8 # 10)%Q.
Proof.
  split_and!.
  - destruct (gain_follows_precedence GroupRenderer
                (Some {| Volume.volume := 1 # 2; Volume.muted := true |})
                {| Volume.volume := 8 # 10; Volume.muted := false |}) as (H & _).
    eapply H; reflexivity.
  - destruct (gain_follows_precedence AudioTrackRenderer
                (Some {| Volume.volume := 1 # 2; Volume.muted := false |})
                {| Volume.volume := 8 # 10; Volume.muted := true |}) as (_ & H & _).
    eapply (H {| Volume.volume := 1 # 2; Volume.muted := false |}); reflexivity.
  - destruct (gain_follows_precedence StageMemberRenderer None
                {| Volume.volume := 8 # 10; Volume.muted := false |}) as (_ & _ & H & _).
    apply H; [left|]; reflexivity.
Defined.

(** C6 at the failing input.  An entity of volume 0.8 under an override
    with muted:true is silent, as the claim says; but under an override
    that is not muted and carries volume 0 the gain is the entity's own
    0.8 (and 0 only through the entity's own mute), in each of the four
    renderers, where the claimed precedence of the override volume over the
    entity's own mute and volume gives 0: the test [customVolume?.volume]
    reads volume 0 as no volume. *)
Theorem zero_volume_override_is_skipped :
  (∀ r v m, rendererGain r (Some {| Volume.volume := v; Volume.muted := true |})
              {| Volume.volume := 8 # 10; Volume.muted := m |} = 0%Q)
  ∧ (∀ r, rendererGain r (Some {| Volume.volume := 0; Volume.muted := false |})
            {| Volume.volume := 8 # 10; Volume.muted := false |} = (8 # 10)%Q)
  ∧ (∀ r (entity : Volume.t),
       rendererGain r (Some {| Volume.volume := 0; Volume.muted := false |}) entity
       = rendererGain r None entity).
Proof. split_and!; intros; by destruct r. Qed.

(** ** Media session helpers *)

Section session.
Import Mediasoup.
Variable E : env.

(** [pauseProducer] and [resumeProducer] never look at the producer's
    pause state: the request always goes out. *)
Lemma pauseProducer_always_requests producer w :
  sent (pauseProducer E producer w).2 = sent w ++ [PauseProducer (producerId producer)].
Proof. unfold pauseProducer. by destruct (failed _). Qed.

Lemma resumeProducer_always_requests producer w :
  sent (resumeProducer E producer w).2 = sent w ++ [ResumeProducer (producerId producer)].
Proof. unfold resumeProducer. by destruct (failed _). Qed.

(** The consumer helpers do have the guard. *)
Lemma pauseConsumer_guard consumer w :
  consumerPaused consumer = true →
  pauseConsumer E consumer w = (Rejected (ErrObject "Consumer is not paused"), w).
Proof. intros H. unfold pauseConsumer. by rewrite H. Qed.

Lemma resumeConsumer_guard consumer w :
  consumerPaused consumer = false →
  resumeConsumer E consumer w = (Rejected (ErrObject "Consumer is paused yet"), w).
Proof. intros H. unfold resumeConsumer. by rewrite H. Qed.

Lemma connectedAfter_snoc tid before l r :
  connectedAfter E tid before (l ++ [r])
  = connectedAfter E tid before l
    || (bool_decide (r = ConnectTransport tid)
        && bool_decide (failed (ackPlain E (before ++ l) r) = None)).
Proof.
  revert before. induction l as [|x l IH]; intros before; simpl.
  - by rewrite app_nil_r, orb_false_r.
  - rewrite IH, <- app_assoc. simpl. by rewrite orb_assoc.
Qed.

(** Requests other than its own connect-transport leave a transport's
    readiness as it is; an acknowledged connect-transport makes it ready. *)
Lemma transportReady_emitted transport r w :
  transportReady E transport (emitted r w)
  = transportReady E transport w
    || (bool_decide (r = ConnectTransport (transportId transport))
        && bool_decide (failed (ackPlain E (sent w) r) = None)).
Proof. unfold transportReady, emitted. simpl. apply connectedAfter_snoc. Qed.

(** [createConsumer] after an acknowledged create-consumer request: on a
    ready transport it resolves at once; otherwise the connect handshake
    runs first and, when it is refused, the promise is never settled.  The
    local consumer takes the pause state the server reports. *)
Lemma createConsumer_outcome transport producerId w :
  let create := CreateConsumer producerId (transportId transport) in
  let connect := ConnectTransport (transportId transport) in
  let ack := ackCreateConsumer E (sent w) producerId (transportId transport) in
  let c := {| consumerId := dataId ack.2;
              consumerProducerId := dataProducerId ack.2;
              consumerPaused := dataPaused ack.2;
              consumerClosed := false |} in
  failed ack.1 = None →
  createConsumer E transport producerId w
  = if transportReady E transport w then (Resolved c, emitted create w)
    else match failed (ackPlain E (sent w ++ [create]) connect) with
         | Some _ => (Pending, emitted connect (emitted create w))
         | None => (Resolved c, emitted connect (emitted create w))
         end.
Proof.
  intros create connect ack c Hok. subst c. unfold createConsumer. fold ack create.
  destruct ack as [err data]. simpl in *. rewrite Hok.
  unfold transportConsume, onTransportConnect.
  rewrite transportReady_emitted. simpl. rewrite orb_false_r.
  destruct (transportReady E transport w); [by destruct (dataPaused data)|].
  fold connect. destruct (failed (ackPlain E (sent w ++ [create]) connect));
    [done|by destruct (dataPaused data)].
Qed.

Lemma resumeConsumer_resolved consumer w c w' :
  resumeConsumer E consumer w = (Resolved c, w') → consumerPaused c = false.
Proof.
  unfold resumeConsumer. destruct (consumerPaused consumer); [|by inversion 1].
  destruct (failed _); inversion 1. done.
Qed.

Lemma consume_resolved_running transport producerId w c w' :
  consume E transport producerId w = (Resolved c, w') → consumerPaused c = false.
Proof.
  unfold consume, andThen.
  destruct (createConsumer E transport producerId w) as [[c0|e|] w0];
    [|by inversion 1..].
  destruct (consumerPaused c0) eqn:Hp.
  - destruct (resumeConsumer E c0 w0) as [[c1|e|] w1] eqn:Hr; [|by inversion 1..].
    unfold resolve. intros [= <- <-]. by eapply resumeConsumer_resolved.
  - unfold resolve. by intros [= <- <-].
Qed.
End session.

(** C3 at the failing input: two [pauseProducer] calls in a row on a
    running producer, on a server that acknowledges everything.  The second
    call, on the by then paused producer, resolves like the first and sends
    a second pause request; so do two [resumeProducer] calls on a paused
    producer. *)
Theorem second_pause_is_sent_again :
  Mediasoup.andThen (Mediasoup.pauseProducer Examples.agreeable Examples.runningProducer)
    (Mediasoup.pauseProducer Examples.agreeable) Mediasoup.emptyWorld
  = (Mediasoup.Resolved Examples.pausedProducer,
     {| Mediasoup.sent := [Mediasoup.PauseProducer "p"; Mediasoup.PauseProducer "p"];
        Mediasoup.openTransports := [] |})
  ∧ Mediasoup.andThen (Mediasoup.resumeProducer Examples.agreeable Examples.pausedProducer)
      (Mediasoup.resumeProducer Examples.agreeable) Mediasoup.emptyWorld
    = (Mediasoup.Resolved Examples.runningProducer,
       {| Mediasoup.sent := [Mediasoup.ResumeProducer "p"; Mediasoup.ResumeProducer "p"];
          Mediasoup.openTransports := [] |}).
Proof. split; reflexivity. Qed.

(** C7, as stated, fails: when the server reports the new consumer paused
    and then acknowledges the resume request, [consume] resolves with a
    consumer that is not paused (the transport, used for the first time,
    connects in between). *)
Lemma consume_resumes_paused_consumer :
  Mediasoup.consume Examples.agreeable Examples.receiveTransport "p1" Mediasoup.emptyWorld
  = (Mediasoup.Resolved
       {| Mediasoup.consumerId := "c1"; Mediasoup.consumerProducerId := "p1";
          Mediasoup.consumerPaused := false; Mediasoup.consumerClosed := false |},
     {| Mediasoup.sent :=
          [Mediasoup.CreateConsumer "p1" "t2"; Mediasoup.ConnectTransport "t2";
           Mediasoup.ResumeConsumer "c1"];
        Mediasoup.openTransports := [] |}).
Proof. reflexivity. Qed.

(** C7 (amended): for every [consume(producerId)] call where the server's
    create-consumer response reports paused:true.  On a transport that has
    not connected yet the connect handshake runs first (a connect-transport
    request), and when the server refuses it neither [createConsumer] nor
    [consume] is ever settled.  Otherwise [createConsumer] resolves with a
    local consumer whose pause state is true, and [consume] then asks the
    server to resume it: if the server acknowledges, [consume] resolves
    with that consumer resumed (pause state false); if the server refuses,
    [consume] rejects with the server's error. *)
Theorem consume_unpauses_or_rejects (E : Mediasoup.env) (transport : Mediasoup.Transport)
    (producerId : string) (w : Mediasoup.world) :
  let create := Mediasoup.CreateConsumer producerId (Mediasoup.transportId transport) in
  let connect := Mediasoup.ConnectTransport (Mediasoup.transportId transport) in
  let ack := Mediasoup.ackCreateConsumer E (Mediasoup.sent w) producerId
               (Mediasoup.transportId transport) in
  let resume := Mediasoup.ResumeConsumer (Mediasoup.dataId ack.2) in
  let created := Mediasoup.emitted create w in
  let afterCreation (w' : Mediasoup.world) :=
    (∃ c, Mediasoup.createConsumer E transport producerId w = (Mediasoup.Resolved c, w')
          ∧ Mediasoup.consumerPaused c = true)
    ∧ match Mediasoup.failed (Mediasoup.ackPlain E (Mediasoup.sent w') resume) with
      | None =>
          ∃ c, Mediasoup.consume E transport producerId w
               = (Mediasoup.Resolved c, Mediasoup.emitted resume w')
               ∧ Mediasoup.consumerId c = Mediasoup.dataId ack.2
               ∧ Mediasoup.consumerPaused c = false
      | Some err =>
          Mediasoup.consume E transport producerId w
          = (Mediasoup.Rejected (Mediasoup.ErrString err), Mediasoup.emitted resume w')
      end in
  Mediasoup.failed ack.1 = None →
  Mediasoup.dataPaused ack.2 = true →
  if Mediasoup.transportReady E transport w then afterCreation created
  else match Mediasoup.failed (Mediasoup.ackPlain E (Mediasoup.sent created) connect) with
       | Some _ =>
           Mediasoup.createConsumer E transport producerId w
           = (Mediasoup.Pending, Mediasoup.emitted connect created)
           ∧ Mediasoup.consume E transport producerId w
             = (Mediasoup.Pending, Mediasoup.emitted connect created)
       | None => afterCreation (Mediasoup.emitted connect created)
       end.
Proof.
  intros create connect ack resume created afterCreation Hok Hpaused.
  pose proof (createConsumer_outcome E transport producerId w Hok) as Hc.
  fold ack create connect in Hc. rewrite Hpaused in Hc.
  assert (Hafter : ∀ w', Mediasoup.createConsumer E transport producerId w
            = (Mediasoup.Resolved
                 {| Mediasoup.consumerId := Mediasoup.dataId ack.2;
                    Mediasoup.consumerProducerId := Mediasoup.dataProducerId ack.2;
                    Mediasoup.consumerPaused := true;
                    Mediasoup.consumerClosed := false |}, w') →
            afterCreation w').
  { intros w' Hw'. subst afterCreation. simpl. split; [by eexists|].
    unfold Mediasoup.consume, Mediasoup.andThen. rewrite Hw'. simpl.
    unfold Mediasoup.resumeConsumer. simpl. fold resume.
    destruct (Mediasoup.failed (Mediasoup.ackPlain E (Mediasoup.sent w') resume));
      [done|]. by eexists. }
  destruct (Mediasoup.transportReady E transport w); [by apply Hafter|].
  change (Mediasoup.sent created) with (Mediasoup.sent w ++ [create]).
  destruct (Mediasoup.failed (Mediasoup.ackPlain E (Mediasoup.sent w ++ [create]) connect));
    [|by apply Hafter].
  split; [done|]. unfold Mediasoup.consume, Mediasoup.andThen. by rewrite Hc.
Qed.

Lemma consume_unpauses_or_rejects_witness :
  Mediasoup.failed
    (Mediasoup.ackCreateConsumer Examples.agreeable [] "p1" "t2").1 = None
  ∧ Mediasoup.dataPaused
      (Mediasoup.ackCreateConsumer Examples.agreeable [] "p1" "t2").2 = true
  ∧ ∃ c, Mediasoup.consume Examples.agreeable Examples.receiveTransport "p1"
           Mediasoup.emptyWorld
         = (Mediasoup.Resolved c,
            {| Mediasoup.sent :=
                 [Mediasoup.CreateConsumer "p1" "t2"; Mediasoup.ConnectTransport "t2";
                  Mediasoup.ResumeConsumer "c1"];
               Mediasoup.openTransports := [] |})
         ∧ Mediasoup.consumerId c = "c1"
         ∧ Mediasoup.consumerPaused c = false.
Proof.
  split; [reflexivity|]. split; [reflexivity|].
  exact (proj2 (consume_unpauses_or_rejects Examples.agreeable Examples.receiveTransport
                  "p1" Mediasoup.emptyWorld eq_refl eq_refl)).
Defined.

(** Two runs of the handshake.  On a server that refuses connect-transport
    the first [consume] on a transport is never settled; on a server that
    acknowledges it, a second [consume] on the same transport does not
    connect again. *)
Lemma consume_on_fresh_and_connected_transport :
  Mediasoup.consume Examples.refusesConnect Examples.receiveTransport "p1"
    Mediasoup.emptyWorld
  = (Mediasoup.Pending,
     {| Mediasoup.sent :=
          [Mediasoup.CreateConsumer "p1" "t2"; Mediasoup.ConnectTransport "t2"];
        Mediasoup.openTransports := [] |})
  ∧ Mediasoup.sent
      (Mediasoup.andThen
         (Mediasoup.consume Examples.agreeable Examples.receiveTransport "p1")
         (λ _, Mediasoup.consume Examples.agreeable Examples.receiveTransport "p2")
         Mediasoup.emptyWorld).2
    = [Mediasoup.CreateConsumer "p1" "t2"; Mediasoup.ConnectTransport "t2";
       Mediasoup.ResumeConsumer "c1";
       Mediasoup.CreateConsumer "p2" "t2"; Mediasoup.ResumeConsumer "c1"].
Proof. split; reflexivity. Qed.

(** C9, as stated, fails: on a server that grants the first transport and
    refuses the second, [connect] rejects while the send transport it
    created stays open; no close-transport request was sent. *)
Lemma connect_leaves_transport_open :
  Mediasoup.connect Examples.refusesSecondTransport Mediasoup.emptyWorld
  = (Mediasoup.Rejected (Mediasoup.ErrString "no more transports"),
     {| Mediasoup.sent :=
          [Mediasoup.GetRTPCapabilities; Mediasoup.CreateTransport;
           Mediasoup.CreateTransport];
        Mediasoup.openTransports :=
          [{| Mediasoup.transportDirection := Mediasoup.send;
              Mediasoup.transportId := "t1" |}] |}).
Proof. reflexivity. Qed.

(** C9 (amended): [connect] rejects if the capability request, the loading
    of the capabilities into the device, or either transport creation
    fails.  It tears nothing down: it sends no close-transport request and
    every transport that was open stays open; when one transport creation
    succeeds and the other fails, the created transport is left open
    beside the rejection. *)
Theorem connect_rejects_without_teardown (E : Mediasoup.env) (w : Mediasoup.world) :
  let caps := Mediasoup.ackCapabilities E (Mediasoup.sent w) in
  let sendAck :=
    Mediasoup.ackCreateTransport E (Mediasoup.sent w ++ [Mediasoup.GetRTPCapabilities]) in
  let recvAck :=
    Mediasoup.ackCreateTransport E
      ((Mediasoup.sent w ++ [Mediasoup.GetRTPCapabilities]) ++ [Mediasoup.CreateTransport]) in
  let sendTransport :=
    {| Mediasoup.transportDirection := Mediasoup.send;
       Mediasoup.transportId := Mediasoup.transportOptionsId sendAck.2 |} in
  let receiveTransport :=
    {| Mediasoup.transportDirection := Mediasoup.receive;
       Mediasoup.transportId := Mediasoup.transportOptionsId recvAck.2 |} in
  let r := Mediasoup.connect E w in
  ((Mediasoup.failed caps.1 ≠ None ∨ Mediasoup.deviceLoad E caps.2 ≠ None
    ∨ Mediasoup.failed sendAck.1 ≠ None ∨ Mediasoup.failed recvAck.1 ≠ None) →
   ∃ e, r.1 = Mediasoup.Rejected e)
  ∧ (∃ created,
       Mediasoup.openTransports r.2 = Mediasoup.openTransports w ++ created)
  ∧ (∀ x, x ∈ Mediasoup.sent r.2 → Mediasoup.isCloseTransport x = true →
          x ∈ Mediasoup.sent w)
  ∧ (Mediasoup.failed caps.1 = None → Mediasoup.deviceLoad E caps.2 = None →
     (Mediasoup.failed sendAck.1 = None → Mediasoup.failed recvAck.1 ≠ None →
      Mediasoup.openTransports r.2 = Mediasoup.openTransports w ++ [sendTransport])
     ∧ (Mediasoup.failed sendAck.1 ≠ None → Mediasoup.failed recvAck.1 = None →
        Mediasoup.openTransports r.2 = Mediasoup.openTransports w ++ [receiveTransport])).
Proof.
  intros caps sendAck recvAck sendTransport receiveTransport r.
  subst r sendTransport receiveTransport.
  unfold Mediasoup.connect, Mediasoup.andThen, Mediasoup.getRTPCapabilities.
  fold caps. destruct caps as [cerr rtp]. simpl.
  assert (Hclose : ∀ (x : Mediasoup.request) l,
            x ∈ Mediasoup.sent w ++ l → Mediasoup.isCloseTransport x = true →
            Forall (λ y, Mediasoup.isCloseTransport y = false) l → x ∈ Mediasoup.sent w).
  { intros x l [Hx|Hx]%elem_of_app Hc Hl; [done|].
    rewrite Forall_forall in Hl. specialize (Hl x Hx). congruence. }
  destruct (Mediasoup.failed cerr) as [s|]; simpl.
  { split_and!; [by eauto|exists []; by rewrite app_nil_r| |done].
    intros x Hx Hc. eapply Hclose; [done..|]. by repeat constructor. }
  destruct (Mediasoup.deviceLoad E rtp) as [e|]; simpl.
  { split_and!; [by eauto|exists []; by rewrite app_nil_r| |done].
    intros x Hx Hc. eapply Hclose; [done..|]. by repeat constructor. }
  unfold Mediasoup.all2, Mediasoup.createWebRTCTransport. simpl.
  fold sendAck. destruct sendAck as [serr sopts] eqn:Hsend. simpl.
  destruct (Mediasoup.failed serr) as [s|] eqn:Hs; simpl;
    fold recvAck; destruct recvAck as [rerr ropts] eqn:Hrecv; simpl;
    destruct (Mediasoup.failed rerr) as [s'|] eqn:Hr; simpl;
    (split_and!;
     [ try (by eauto); intros [?|[?|[?|?]]]; done
     | first [ by exists [] ; rewrite app_nil_r
             | by eexists [_]
             | eexists [_; _]; by rewrite <- app_assoc ]
     | intros x Hx Hc; rewrite <- !app_assoc in Hx; eapply Hclose; [done..|];
       by repeat constructor
     | intros _ _; split; intros; simplify_eq; try done ]).
Qed.

Lemma connect_rejects_without_teardown_witness :
  (∃ e, (Mediasoup.connect Examples.refusesSecondTransport Mediasoup.emptyWorld).1
        = Mediasoup.Rejected e)
  ∧ Mediasoup.openTransports
      (Mediasoup.connect Examples.refusesSecondTransport Mediasoup.emptyWorld).2
    = [{| Mediasoup.transportDirection := Mediasoup.send;
          Mediasoup.transportId := "t1" |}].
Proof.
  destruct (connect_rejects_without_teardown Examples.refusesSecondTransport
              Mediasoup.emptyWorld) as (Hrej & _ & _ & Hopen).
  split.
  - apply Hrej. right. right. right. vm_compute. discriminate.
  - apply Hopen; [reflexivity|reflexivity|reflexivity|vm_compute; discriminate].
Defined.

(** ** Device refresh *)

Lemma enumerateDevices_locs navigator (next : nat) :
  (next ≤ MediaDevices.loc (MediaDevices.enumInputVideoDevices
                              (MediaDevices.enumerateDevices navigator next)))%nat
  ∧ (next ≤ MediaDevices.loc (MediaDevices.enumInputAudioDevices
                                (MediaDevices.enumerateDevices navigator next)))%nat
  ∧ (next ≤ MediaDevices.loc (MediaDevices.enumOutputAudioDevices
                                (MediaDevices.enumerateDevices navigator next)))%nat.
Proof.
  unfold MediaDevices.enumerateDevices. destruct navigator as [devices|]; simpl.
  - destruct (MediaDevices.collect devices 0 ([], [], [])) as [[video audio] output].
    simpl. lia.
  - lia.
Qed.

Lemma strictNotEqual_older a b (next : nat) :
  (MediaDevices.loc a < next)%nat → (next ≤ MediaDevices.loc b)%nat →
  MediaDevices.strictNotEqual a b = true.
Proof.
  intros Ha Hb. unfold MediaDevices.strictNotEqual.
  apply negb_true_iff, Nat.eqb_neq. lia.
Qed.

(** C4 on the code: the enumerated arrays are new objects, so [!==] holds
    for each of the three lists whatever they contain, and with a socket
    every refresh emits one update event carrying all three lists, also
    when the enumeration equals the last known device record. *)
Theorem refresh_always_emits_update (navigator : option (list MediaDevices.MediaDeviceInfo))
    (next : nat) (currentDevice : MediaDevices.MediasoupDevice) :
  MediaDevices.allocatedBefore next currentDevice →
  MediaDevices.refreshMediaDevices navigator next currentDevice true
  = [ {| MediaDevices.update_id := MediaDevices.device_id currentDevice;
         MediaDevices.updateInputAudioDevices :=
           Some (MediaDevices.enumInputAudioDevices
                   (MediaDevices.enumerateDevices navigator next));
         MediaDevices.updateInputVideoDevices :=
           Some (MediaDevices.enumInputVideoDevices
                   (MediaDevices.enumerateDevices navigator next));
         MediaDevices.updateOutputAudioDevices :=
           Some (MediaDevices.enumOutputAudioDevices
                   (MediaDevices.enumerateDevices navigator next)) |} ].
Proof.
  intros (Ha & Hv & Ho).
  destruct (enumerateDevices_locs navigator next) as (Hv' & Ha' & Ho').
  unfold MediaDevices.refreshMediaDevices.
  rewrite (strictNotEqual_older _ _ next Ha Ha'),
          (strictNotEqual_older _ _ next Hv Hv'),
          (strictNotEqual_older _ _ next Ho Ho').
  reflexivity.
Qed.

(** The failing input of C4: the last known record has three empty lists,
    the enumeration finds no device, and still one update event goes out. *)
Lemma refresh_always_emits_update_witness :
  MediaDevices.allocatedBefore 3 Examples.knownDevice
  ∧ MediaDevices.sameLists Examples.knownDevice (MediaDevices.enumerateDevices (Some []) 3)
  ∧ length (MediaDevices.refreshMediaDevices (Some []) 3 Examples.knownDevice true) = 1%nat.
Proof.
  assert (H : MediaDevices.allocatedBefore 3 Examples.knownDevice).
  { unfold MediaDevices.allocatedBefore. simpl. lia. }
  split; [exact H|]. split; [by repeat split|].
  by rewrite (refresh_always_emits_update (Some []) 3 Examples.knownDevice H).
Defined.

(** * Further properties of the modelled code *)

(** ** Store: removal, bulk join, repeated delivery *)

Lemma filter_ne_notin (l : list string) (v : string) :
  v ∉ l → filter (λ x, x ≠ v) l = l.
Proof.
  induction l as [|x l IH]; intros Hv; [done|].
  apply not_elem_of_cons in Hv as [Hne Hv].
  rewrite filter_cons_True by done. by rewrite IH.
Qed.

Lemma filter_ne_snoc (l : list string) (v : string) :
  v ∉ l → filter (λ x, x ≠ v) (l ++ [v]) = l.
Proof.
  intros Hv. rewrite filter_app, filter_ne_notin by done.
  rewrite filter_cons_False by (by intros ?). apply app_nil_r.
Qed.

(** Removing an id the store does not know leaves the store as it is: the
    removal of an id that is neither a key of [byId] nor listed in
    [allIds] returns the very same state, for each of the four stores. *)
Theorem remove_unknown_is_noop (k : kind) (s : store k) (id : string) :
  byIdOf k s !! id = None → id ∉ allIdsOf k s →
  reduce k s (removedEvent k id) = s.
Proof.
  intros Hnone Hnotin. destruct k; simpl in *; try (by rewrite Hnone).
  destruct s as [byId allIds]. simpl in *.
  by rewrite delete_id, filter_ne_notin.
Qed.

Lemma remove_unknown_is_noop_witness :
  reduce KDevices
    (reduce KDevices (initial KDevices) (DeviceAdded {| _id := "d1"; fields := ∅ |}))
    (removedEvent KDevices "d2")
  = reduce KDevices (initial KDevices) (DeviceAdded {| _id := "d1"; fields := ∅ |}).
Proof.
  apply (remove_unknown_is_noop KDevices).
  - vm_compute. reflexivity.
  - vm_compute. intros H. apply list_elem_of_singleton in H. discriminate.
Defined.

(** A bulk join acts as the 'added' events of its entities, one after the
    other, in the order of the snapshot; the device store, which has no
    list in the snapshot, ignores it. *)
Theorem bulk_join_is_adds_in_order (k : kind) (s : store k) (p : StageJoinedPayload) :
  reduce k s (StageJoined p)
  = run (reduce k) s (addedEvent k <$> addedBy k (StageJoined p)).
Proof.
  unfold run. destruct k; simpl; try done; rewrite forEach_foldl;
    generalize s;
    match goal with |- context [default [] ?l] => generalize (default [] l) end;
    intros es; induction es as [|e es IH]; intros s0; simpl; auto.
Qed.

Lemma upsert_upsert o v : upsert (Some (upsert o v)) v = upsert o v.
Proof.
  unfold upsert at 1. rewrite bool_decide_eq_true_2; [done|].
  apply elem_of_upsert. by left.
Qed.

(** Delivering the same 'video track added' event twice gives the state of
    delivering it once: the buckets and [allIds] are upserted, [byId] is
    overwritten with the same record. *)
Theorem video_track_added_twice (s : VideoTracks.t) (videoTrack : entity) :
  reduceVideoTracks (reduceVideoTracks s (VideoTrackAdded videoTrack))
    (VideoTrackAdded videoTrack)
  = reduceVideoTracks s (VideoTrackAdded videoTrack).
Proof.
  unfold reduceVideoTracks, addVideoTrack. cbn -[upsert].
  rewrite !lookup_insert_eq, !insert_insert_eq, !upsert_upsert.
  reflexivity.
Qed.

Lemma spread_spread old p : spread (Some (spread old p)) p = spread old p.
Proof.
  unfold spread. simpl. f_equal.
  by rewrite (assoc_L (∪)), (idemp_L (∪)).
Qed.

(** Delivering the same 'changed' event twice gives the state of delivering
    it once, for each of the four stores. *)
Theorem patch_twice_is_patch_once (k : kind) (s : store k) (p : entity) :
  reduce k (reduce k s (changedEvent k p)) (changedEvent k p)
  = reduce k s (changedEvent k p).
Proof.
  destruct k; simpl;
    by rewrite lookup_insert_eq, insert_insert_eq, spread_spread.
Qed.

Lemma bucket_insert (index : gmap string (list string)) key l key' :
  bucket (<[key := l]> index) key' = if decide (key = key') then l else bucket index key'.
Proof. unfold bucket. rewrite lookup_insert. by case_decide. Qed.

Lemma bucket_append_then_without (index : gmap string (list string)) key id key' :
  id ∉ bucket index key →
  bucket
    (<[key := without
                (Some match index !! key with
                      | Some l => l ++ [id]
                      | None => [id]
                      end) id]>
       (<[key := match index !! key with
                 | Some l => l ++ [id]
                 | None => [id]
                 end]> index)) key'
  = bucket index key'.
Proof.
  intros Hid. rewrite insert_insert_eq, bucket_insert.
  case_decide as Hk; [subst key'|done].
  unfold bucket in *. destruct (index !! key) as [l|]; simpl in *.
  - by apply filter_ne_snoc.
  - by rewrite filter_cons_False by (by intros ?).
Qed.

Lemma bucket_upsert_then_without (index : gmap string (list string)) key id key' :
  id ∉ bucket index key →
  bucket
    (<[key := without (Some (upsert (index !! key) id)) id]>
       (<[key := upsert (index !! key) id]> index)) key'
  = bucket index key'.
Proof.
  intros Hid. rewrite insert_insert_eq, bucket_insert.
  case_decide as Hk; [subst key'|done].
  unfold bucket in *. destruct (index !! key) as [l|]; simpl in *.
  - rewrite bool_decide_eq_false_2 by done. by apply filter_ne_snoc.
  - by rewrite filter_cons_False by (by intros ?).
Qed.

Lemma index_free_bucket id (index : gmap string (list string)) key :
  index_free id index → id ∉ bucket index key.
Proof.
  intros Hfree. unfold bucket. destruct (index !! key) as [l|] eqn:Hl; simpl.
  - by apply (Hfree key).
  - apply not_elem_of_nil.
Qed.

(** Adding an entity under an id the store does not hold and removing it
    again restores [byId] and [allIds], and every bucket reads as before
    (the bucket the id went through may now exist and be empty where it
    was missing). *)
Theorem add_then_remove_restores (k : kind) (s : store k) (e : entity) :
  byIdOf k s !! _id e = None →
  _id e ∉ allIdsOf k s →
  (∀ f index, (f, index) ∈ indicesOf k s → index_free (_id e) index) →
  let s' := reduce k (reduce k s (addedEvent k e)) (removedEvent k (_id e)) in
  byIdOf k s' = byIdOf k s
  ∧ allIdsOf k s' = allIdsOf k s
  ∧ Forall2 (λ i' i, i'.1 = i.1 ∧ ∀ key, bucket i'.2 key = bucket i.2 key)
      (indicesOf k s') (indicesOf k s).
Proof.
  intros Hnone Hnotin Hfree s'. subst s'.
  assert (Hb : ∀ f index key, (f, index) ∈ indicesOf k s → _id e ∉ bucket index key).
  { intros f index key Hin. apply index_free_bucket. by eapply Hfree. }
  assert (HbyId : ∀ x : entity,
            delete (_id e) (<[_id e := x]> (byIdOf k s)) = byIdOf k s).
  { intros x. by rewrite delete_insert_eq, delete_id. }
  assert (Hall : filter (λ x, x ≠ _id e) (allIdsOf k s ++ [_id e]) = allIdsOf k s)
    by by apply filter_ne_snoc.
  destruct k; cbn -[upsert without] in *;
    rewrite ?lookup_insert_eq; cbn -[upsert without];
    (split; [apply HbyId|]);
    (split; [unfold upsert, without; by rewrite bool_decide_eq_false_2|]);
    repeat (apply Forall2_cons; split;
            [split; [done|]; intros key; cbn [fst snd];
             first [ apply bucket_append_then_without
                   | apply bucket_upsert_then_without ];
             eapply Hb;
             repeat first [apply list_elem_of_here | apply list_elem_of_further]|]);
    apply Forall2_nil_2.
Qed.

Lemma add_then_remove_restores_witness :
  let s := reduce KVideoTracks (initial KVideoTracks)
             (VideoTrackAdded {| _id := "v1"; fields := {[ "stageId" := VStr "s" ]} |}) in
  let e := {| _id := "v2"; fields := {[ "stageId" := VStr "s" ]} |} in
  byIdOf KVideoTracks
    (reduce KVideoTracks (reduce KVideoTracks s (VideoTrackAdded e)) (VideoTrackRemoved "v2"))
  = byIdOf KVideoTracks s
  ∧ allIdsOf KVideoTracks
      (reduce KVideoTracks (reduce KVideoTracks s (VideoTrackAdded e))
         (VideoTrackRemoved "v2"))
    = allIdsOf KVideoTracks s.
Proof.
  intros s e.
  destruct (add_then_remove_restores KVideoTracks s e) as (H1 & H2 & _).
  - vm_compute. reflexivity.
  - vm_compute. intros H. apply list_elem_of_singleton in H. discriminate.
  - intros f index Hin key l Hl Hv. simpl in Hin. list_cases Hin;
      vm_compute in Hl; repeat case_match; simplify_eq;
      apply list_elem_of_singleton in Hv; discriminate.
  - split; [exact H1|exact H2].
Defined.

(** ** Store: the compound index and its selector *)

(** After an override is added, the selector finds it under its own
    (listening device, target) pair, whatever the pair mapped to before:
    a second override for the same pair replaces the first.  The id must
    not be the empty string, which the selector's truthiness test reads as
    no id. *)
Theorem selector_finds_added_override (k : kind) (s : store k) (e : entity) :
  isOverrideKind k = true →
  _id e ≠ "" →
  selectOverride k (reduce k s (addedEvent k e)) (ref e "deviceId") (ref e (targetField k))
  = Some e.
Proof.
  intros Hk Hid. destruct k; try discriminate;
    unfold selectOverride, selectCustomGroupPosition, selectCustomStageMemberVolume,
      selectCustom; cbn -[upsert];
    by rewrite !lookup_insert_eq, bool_decide_eq_false_2, ?lookup_insert_eq.
Qed.

Lemma selector_finds_added_override_witness :
  let first := {| _id := "a";
                  fields := {[ "groupId" := VStr "g"; "deviceId" := VStr "d" ]} |} in
  let second := {| _id := "b";
                   fields := {[ "groupId" := VStr "g"; "deviceId" := VStr "d";
                                "x" := VNum 4 ]} |} in
  selectCustomGroupPosition
    (run reduceCustomGroupPositions initialCustomGroupPositions
       [CustomGroupPositionAdded first; CustomGroupPositionAdded second]) "d" "g"
  = Some second.
Proof.
  intros first second.
  exact (selector_finds_added_override KCustomGroupPositions
           (reduceCustomGroupPositions initialCustomGroupPositions
              (CustomGroupPositionAdded first))
           second eq_refl ltac:(discriminate)).
Defined.

(** Removing a stored override clears the compound-index entry of its
    (listening device, target) pair, whichever id that entry held: the
    selector finds nothing for the pair afterwards, also when another
    override for the same pair is still in [byId]. *)
Theorem removal_unmaps_pair (k : kind) (s : store k) (id : string) (stored : entity) :
  byIdOf k s !! id = Some stored →
  selectOverride k (reduce k s (removedEvent k id))
    (ref stored "deviceId") (ref stored (targetField k))
  = None.
Proof.
  intros Hst. destruct k; try done;
    unfold selectOverride, selectCustomGroupPosition, selectCustomStageMemberVolume,
      selectCustom; simpl in *; rewrite Hst; simpl; rewrite lookup_insert_eq;
    match goal with
    | |- context [omit ?o ?t] => destruct o as [inner|]; simpl
    end;
    by rewrite ?lookup_delete_eq, ?lookup_empty.
Qed.

Lemma removal_unmaps_pair_witness :
  let first := {| _id := "a";
                  fields := {[ "groupId" := VStr "g"; "deviceId" := VStr "d" ]} |} in
  let second := {| _id := "b";
                   fields := {[ "groupId" := VStr "g"; "deviceId" := VStr "d" ]} |} in
  let s := run reduceCustomGroupPositions initialCustomGroupPositions
             [CustomGroupPositionAdded first; CustomGroupPositionAdded second] in
  CustomGroupPositions.byId (reduceCustomGroupPositions s (CustomGroupPositionRemoved "b"))
    !! "a" = Some first
  ∧ selectCustomGroupPosition
      (reduceCustomGroupPositions s (CustomGroupPositionRemoved "b")) "d" "g" = None.
Proof.
  intros first second s. split; [vm_compute; reflexivity|].
  apply (removal_unmaps_pair KCustomGroupPositions s "b" second).
  vm_compute. reflexivity.
Defined.

(** ** Store: each reducer keeps to its own events *)

(** The added, changed and removed events of one entity kind leave the
    stores of the other kinds untouched; and the device store, unlike the
    three stage-scoped stores, is left as it is by a stage join and by
    leaving the stage. *)
Theorem stores_ignore_foreign_events :
  (∀ (k k' : kind) (s : store k) (e : entity) (id : string),
     k ≠ k' →
     reduce k s (addedEvent k' e) = s
     ∧ reduce k s (changedEvent k' e) = s
     ∧ reduce k s (removedEvent k' id) = s)
  ∧ (∀ (s : Devices.t) (p : StageJoinedPayload),
       reduceDevices s (StageJoined p) = s ∧ reduceDevices s StageLeft = s)
  ∧ (∀ (k : kind) (s : store k),
       k ≠ KDevices → reduce k s StageLeft = initial k)
  ∧ (∀ (k : kind) (s : store k), reduce k s RESET = initial k).
Proof.
  split_and!.
  - intros k k' s e id Hne. by destruct k, k'.
  - done.
  - intros k s Hne. by destruct k.
  - intros k s. by destruct k.
Qed.

(** ** Media session: connect, consumers, transport handlers *)

(** [connect] resolves exactly when the capability request, the loading of
    the capabilities and both transport creations succeed.  It then has
    sent the capability request and two create-transport requests, in this
    order, and resolves with the send transport built from the first
    acknowledgement and the receive transport built from the second, both
    open. *)
Theorem connect_resolves_iff_all_succeed (E : Mediasoup.env) (w : Mediasoup.world) :
  let caps := Mediasoup.ackCapabilities E (Mediasoup.sent w) in
  let sendAck :=
    Mediasoup.ackCreateTransport E (Mediasoup.sent w ++ [Mediasoup.GetRTPCapabilities]) in
  let recvAck :=
    Mediasoup.ackCreateTransport E
      ((Mediasoup.sent w ++ [Mediasoup.GetRTPCapabilities]) ++ [Mediasoup.CreateTransport]) in
  let sendTransport :=
    {| Mediasoup.transportDirection := Mediasoup.send;
       Mediasoup.transportId := Mediasoup.transportOptionsId sendAck.2 |} in
  let receiveTransport :=
    {| Mediasoup.transportDirection := Mediasoup.receive;
       Mediasoup.transportId := Mediasoup.transportOptionsId recvAck.2 |} in
  let allSucceed :=
    Mediasoup.failed caps.1 = None ∧ Mediasoup.deviceLoad E caps.2 = None
    ∧ Mediasoup.failed sendAck.1 = None ∧ Mediasoup.failed recvAck.1 = None in
  (allSucceed ↔ ∃ ts, (Mediasoup.connect E w).1 = Mediasoup.Resolved ts)
  ∧ (allSucceed →
     Mediasoup.connect E w
     = (Mediasoup.Resolved (sendTransport, receiveTransport),
        {| Mediasoup.sent :=
             Mediasoup.sent w
             ++ [Mediasoup.GetRTPCapabilities; Mediasoup.CreateTransport;
                 Mediasoup.CreateTransport];
           Mediasoup.openTransports :=
             Mediasoup.openTransports w ++ [sendTransport; receiveTransport] |})).
Proof.
  intros caps sendAck recvAck sendTransport receiveTransport allSucceed.
  subst allSucceed sendTransport receiveTransport.
  unfold Mediasoup.connect, Mediasoup.andThen, Mediasoup.getRTPCapabilities.
  fold caps. destruct caps as [cerr rtp]. simpl.
  destruct (Mediasoup.failed cerr) as [s|]; simpl.
  { split; [split|]; [by intros (? & _)|by intros [? ?]|by intros (? & _)]. }
  destruct (Mediasoup.deviceLoad E rtp) as [e|]; simpl.
  { split; [split|]; [by intros (_ & ? & _)|by intros [? ?]|by intros (_ & ? & _)]. }
  unfold Mediasoup.all2, Mediasoup.createWebRTCTransport. simpl.
  fold sendAck. destruct sendAck as [serr sopts]. simpl.
  destruct (Mediasoup.failed serr) as [s|]; simpl;
    fold recvAck; destruct recvAck as [rerr ropts]; simpl;
    destruct (Mediasoup.failed rerr) as [s'|]; simpl;
    (split; [split|]);
    try (by intros (_ & _ & ? & ?));
    try (by intros [? ?]).
  - intros _. by eexists.
  - intros _. unfold Mediasoup.resolve. simpl. by rewrite <- !app_assoc.
Qed.

Lemma connect_resolves_iff_all_succeed_witness :
  Mediasoup.connect Examples.agreeable Mediasoup.emptyWorld
  = (Mediasoup.Resolved
       ({| Mediasoup.transportDirection := Mediasoup.send; Mediasoup.transportId := "t1" |},
        {| Mediasoup.transportDirection := Mediasoup.receive;
           Mediasoup.transportId := "t2" |}),
     {| Mediasoup.sent :=
          [Mediasoup.GetRTPCapabilities; Mediasoup.CreateTransport;
           Mediasoup.CreateTransport];
        Mediasoup.openTransports :=
          [ {| Mediasoup.transportDirection := Mediasoup.send;
               Mediasoup.transportId := "t1" |};
            {| Mediasoup.transportDirection := Mediasoup.receive;
               Mediasoup.transportId := "t2" |} ] |}).
Proof.
  apply (proj2 (connect_resolves_iff_all_succeed Examples.agreeable Mediasoup.emptyWorld)).
  repeat split.
Defined.

(** Pausing a running consumer and resuming it, both acknowledged by the
    server, gives back the consumer as it was, after exactly one pause and
    one resume request. *)
Theorem consumer_pause_resume_round_trip (E : Mediasoup.env) (consumer : Mediasoup.Consumer)
    (w : Mediasoup.world) :
  let pause := Mediasoup.PauseConsumer (Mediasoup.consumerId consumer) in
  let resume := Mediasoup.ResumeConsumer (Mediasoup.consumerId consumer) in
  Mediasoup.consumerPaused consumer = false →
  Mediasoup.failed (Mediasoup.ackPlain E (Mediasoup.sent w) pause) = None →
  Mediasoup.failed (Mediasoup.ackPlain E (Mediasoup.sent w ++ [pause]) resume) = None →
  Mediasoup.andThen (Mediasoup.pauseConsumer E consumer) (Mediasoup.resumeConsumer E) w
  = (Mediasoup.Resolved consumer,
     {| Mediasoup.sent := Mediasoup.sent w ++ [pause; resume];
        Mediasoup.openTransports := Mediasoup.openTransports w |}).
Proof.
  intros pause resume Hrun Hp Hr. subst pause resume.
  destruct consumer as [cid pid paused closed]. simpl in *. subst paused.
  unfold Mediasoup.andThen, Mediasoup.pauseConsumer. simpl. rewrite Hp.
  unfold Mediasoup.resumeConsumer. simpl. rewrite Hr.
  unfold Mediasoup.emitted. simpl. by rewrite <- app_assoc.
Qed.

Lemma consumer_pause_resume_round_trip_witness :
  let c := {| Mediasoup.consumerId := "c1"; Mediasoup.consumerProducerId := "p1";
              Mediasoup.consumerPaused := false; Mediasoup.consumerClosed := false |} in
  Mediasoup.andThen (Mediasoup.pauseConsumer Examples.agreeable c)
    (Mediasoup.resumeConsumer Examples.agreeable) Mediasoup.emptyWorld
  = (Mediasoup.Resolved c,
     {| Mediasoup.sent := [Mediasoup.PauseConsumer "c1"; Mediasoup.ResumeConsumer "c1"];
        Mediasoup.openTransports := [] |}).
Proof.
  intros c.
  exact (consumer_pause_resume_round_trip Examples.agreeable c Mediasoup.emptyWorld
           eq_refl eq_refl eq_refl).
Defined.

(** The consumer helpers guard against a redundant call: a second
    [pauseConsumer] right after an acknowledged one, and [resumeConsumer]
    on a consumer that is running, reject locally and send no request. *)
Theorem consumer_redundant_call_rejected (E : Mediasoup.env) (consumer : Mediasoup.Consumer)
    (w : Mediasoup.world) :
  let pause := Mediasoup.PauseConsumer (Mediasoup.consumerId consumer) in
  Mediasoup.consumerPaused consumer = false →
  Mediasoup.failed (Mediasoup.ackPlain E (Mediasoup.sent w) pause) = None →
  Mediasoup.andThen (Mediasoup.pauseConsumer E consumer) (Mediasoup.pauseConsumer E) w
  = (Mediasoup.Rejected (Mediasoup.ErrObject "Consumer is not paused"),
     Mediasoup.emitted pause w)
  ∧ Mediasoup.resumeConsumer E consumer w
    = (Mediasoup.Rejected (Mediasoup.ErrObject "Consumer is paused yet"), w).
Proof.
  intros pause Hrun Hp. subst pause. split.
  - unfold Mediasoup.andThen, Mediasoup.pauseConsumer. rewrite Hrun. simpl. by rewrite Hp.
  - by apply resumeConsumer_guard.
Qed.

Lemma consumer_redundant_call_rejected_witness :
  let c := {| Mediasoup.consumerId := "c1"; Mediasoup.consumerProducerId := "p1";
              Mediasoup.consumerPaused := false; Mediasoup.consumerClosed := false |} in
  Mediasoup.andThen (Mediasoup.pauseConsumer Examples.agreeable c)
    (Mediasoup.pauseConsumer Examples.agreeable) Mediasoup.emptyWorld
  = (Mediasoup.Rejected (Mediasoup.ErrObject "Consumer is not paused"),
     {| Mediasoup.sent := [Mediasoup.PauseConsumer "c1"]; Mediasoup.openTransports := [] |}).
Proof.
  intros c.
  exact (proj1 (consumer_redundant_call_rejected Examples.agreeable c Mediasoup.emptyWorld
                  eq_refl eq_refl)).
Defined.

(** [consume] sends the create-consumer request, then a connect-transport
    request only when the transport has not connected yet, then at most
    one resume request, for the consumer just created; it opens and closes
    no transport.  When the server refuses the creation it rejects with the
    server's error after that single request; when the transport is
    connected and the server reports the consumer running it resolves after
    that single request. *)
Theorem consume_request_discipline (E : Mediasoup.env) (transport : Mediasoup.Transport)
    (producerId : string) (w : Mediasoup.world) :
  let create := Mediasoup.CreateConsumer producerId (Mediasoup.transportId transport) in
  let connect := Mediasoup.ConnectTransport (Mediasoup.transportId transport) in
  let ack := Mediasoup.ackCreateConsumer E (Mediasoup.sent w) producerId
               (Mediasoup.transportId transport) in
  let resume := Mediasoup.ResumeConsumer (Mediasoup.dataId ack.2) in
  let r := Mediasoup.consume E transport producerId w in
  Mediasoup.openTransports r.2 = Mediasoup.openTransports w
  ∧ (∃ handshake resumption,
       Mediasoup.sent r.2 = Mediasoup.sent w ++ [create] ++ handshake ++ resumption
       ∧ (handshake = []
          ∨ handshake = [connect] ∧ Mediasoup.transportReady E transport w = false)
       ∧ (resumption = [] ∨ resumption = [resume]))
  ∧ (∀ err, Mediasoup.failed ack.1 = Some err →
            r = (Mediasoup.Rejected (Mediasoup.ErrString err), Mediasoup.emitted create w))
  ∧ (Mediasoup.failed ack.1 = None → Mediasoup.dataPaused ack.2 = false →
     Mediasoup.transportReady E transport w = true →
     r = (Mediasoup.Resolved
            {| Mediasoup.consumerId := Mediasoup.dataId ack.2;
               Mediasoup.consumerProducerId := Mediasoup.dataProducerId ack.2;
               Mediasoup.consumerPaused := false;
               Mediasoup.consumerClosed := false |},
          Mediasoup.emitted create w)).
Proof.
  intros create connect ack resume r. subst r.
  destruct (Mediasoup.failed ack.1) as [s|] eqn:Hack.
  { unfold Mediasoup.consume, Mediasoup.andThen, Mediasoup.createConsumer.
    fold ack create. destruct ack as [err data]. simpl in *. rewrite Hack. simpl.
    split_and!; [done| |by intros ? ?; simplify_eq|done].
    exists [], []. split_and!; [by rewrite app_nil_r|by left|by left]. }
  pose proof (createConsumer_outcome E transport producerId w Hack) as Hc.
  fold ack create connect in Hc.
  unfold Mediasoup.consume, Mediasoup.andThen. rewrite Hc. clear Hc.
  destruct (Mediasoup.transportReady E transport w) eqn:Hready.
  - destruct (Mediasoup.dataPaused ack.2) eqn:Hp; simpl.
    + unfold Mediasoup.resumeConsumer. simpl. fold resume.
      match goal with
      | |- context [Mediasoup.failed (Mediasoup.ackPlain ?e ?h ?q)] =>
          destruct (Mediasoup.failed (Mediasoup.ackPlain e h q))
      end; simpl;
        (split_and!; [done| |done|done]);
        exists [], [resume]; (split_and!; [by rewrite <- app_assoc|by left|by right]).
    + split_and!; [done| |done|done].
      exists [], []. split_and!; [by rewrite app_nil_r|by left|by left].
  - destruct (Mediasoup.failed (Mediasoup.ackPlain E (Mediasoup.sent w ++ [create]) connect));
      simpl.
    { split_and!; [done| |done|done].
      exists [connect], []. split_and!; [by rewrite <- !app_assoc|by right|by left]. }
    destruct (Mediasoup.dataPaused ack.2) eqn:Hp; simpl.
    + unfold Mediasoup.resumeConsumer. simpl. fold resume.
      match goal with
      | |- context [Mediasoup.failed (Mediasoup.ackPlain ?e ?h ?q)] =>
          destruct (Mediasoup.failed (Mediasoup.ackPlain e h q))
      end; simpl;
        (split_and!; [done| |done|done]);
        exists [connect], [resume];
        (split_and!; [by rewrite <- !app_assoc|by right|by right]).
    + split_and!; [done| |done|done].
      exists [connect], []. split_and!; [by rewrite <- !app_assoc|by right|by left].
Qed.

Lemma failed_Some e m : Mediasoup.failed e = Some m → e = Some m ∧ m ≠ "".
Proof.
  unfold Mediasoup.failed. destruct e as [s|]; [|done].
  case_bool_decide; [done|]. by intros [= ->].
Qed.

(** When the server refuses a connect-transport request, the handler calls
    [errCallback], never [callback], but hands it the error argument of
    the create-transport acknowledgement, which was no error (the handler
    exists only then): the server's refusal message is not passed on. *)
Theorem transport_connect_refusal_loses_message (E : Mediasoup.env)
    (error : option string) (transport : Mediasoup.Transport) (w : Mediasoup.world)
    (message : string) :
  Mediasoup.failed error = None →
  Mediasoup.failed
    (Mediasoup.ackPlain E (Mediasoup.sent w)
       (Mediasoup.ConnectTransport (Mediasoup.transportId transport))) = Some message →
  ∃ passed,
    Mediasoup.onTransportConnect E error transport w
    = (Mediasoup.ErrCallback passed,
       Mediasoup.emitted (Mediasoup.ConnectTransport (Mediasoup.transportId transport)) w)
    ∧ Mediasoup.failed passed = None
    ∧ passed ≠ Some message.
Proof.
  intros Herr Hack. exists error. unfold Mediasoup.onTransportConnect. rewrite Hack.
  split_and!; [done|done|]. intros ->.
  apply failed_Some in Hack as [_ Hne]. simpl in Herr.
  by rewrite bool_decide_eq_false_2 in Herr.
Qed.

Lemma transport_connect_refusal_loses_message_witness :
  ∃ passed,
    Mediasoup.onTransportConnect Examples.refusesConnect None Examples.receiveTransport
      Mediasoup.emptyWorld
    = (Mediasoup.ErrCallback passed,
       {| Mediasoup.sent := [Mediasoup.ConnectTransport "t2"];
          Mediasoup.openTransports := [] |})
    ∧ Mediasoup.failed passed = None
    ∧ passed ≠ Some "dtls failed".
Proof.
  exact (transport_connect_refusal_loses_message Examples.refusesConnect None
           Examples.receiveTransport Mediasoup.emptyWorld "dtls failed" eq_refl eq_refl).
Defined.

(** ** Device enumeration *)

Lemma pretty_N_go_nonempty x s : s ≠ "" → pretty_N_go x s ≠ "".
Proof.
  revert s. induction (N.lt_wf_0 x) as [x _ IH]; intros s Hs.
  destruct (decide (x = 0)%N) as [->|Hx]; [by rewrite pretty_N_go_0|].
  rewrite pretty_N_go_step by lia. apply IH; [|done].
  apply N.div_lt; lia.
Qed.

Lemma pretty_nat_nonempty (n : nat) : pretty n ≠ "".
Proof.
  unfold pretty, pretty_nat, pretty, pretty_N. case_decide; [done|].
  rewrite pretty_N_go_step by lia. by apply pretty_N_go_nonempty.
Qed.

Lemma deviceIdOr_nonempty dev sofar index : MediaDevices.deviceIdOr dev sofar index ≠ "".
Proof.
  unfold MediaDevices.deviceIdOr. repeat case_bool_decide; try done.
  apply pretty_nat_nonempty.
Qed.

Lemma labelOr_nonempty dev : MediaDevices.labelOr dev ≠ "".
Proof. unfold MediaDevices.labelOr. by case_bool_decide. Qed.

Lemma deviceIdOr_given dev sofar index :
  MediaDevices.deviceId dev ≠ "" →
  MediaDevices.deviceIdOr dev sofar index = MediaDevices.deviceId dev.
Proof. intros H. unfold MediaDevices.deviceIdOr. by rewrite bool_decide_eq_false_2. Qed.

Section collect.
Import MediaDevices.

Lemma collect_named devices index video audio output :
  Forall named video → Forall named audio → Forall named output →
  Forall named (collect devices index (video, audio, output)).1.1
  ∧ Forall named (collect devices index (video, audio, output)).1.2
  ∧ Forall named (collect devices index (video, audio, output)).2.
Proof.
  revert index video audio output.
  induction devices as [|dev rest IH]; intros index video audio output Hv Ha Ho; [done|].
  assert (Hnew : ∀ sofar, named {| id := deviceIdOr dev sofar index; label := labelOr dev |}).
  { intros sofar. split; [apply deviceIdOr_nonempty|apply labelOr_nonempty]. }
  simpl. destruct (kind dev); apply IH; try done;
    apply Forall_app; split; try done; by apply Forall_singleton.
Qed.


Lemma collect_ids devices index video audio output :
  Forall (λ dev, deviceId dev ≠ "") devices →
  id <$> (collect devices index (video, audio, output)).1.1
  = (id <$> video) ++ (deviceId <$> devicesOfKind videoinput devices)
  ∧ id <$> (collect devices index (video, audio, output)).1.2
    = (id <$> audio) ++ (deviceId <$> devicesOfKind audioinput devices)
  ∧ id <$> (collect devices index (video, audio, output)).2
    = (id <$> output) ++ (deviceId <$> devicesOfKind audiooutput devices).
Proof.
  revert index video audio output.
  induction devices as [|dev rest IH]; intros index video audio output Hall.
  { simpl. by rewrite !app_nil_r. }
  apply Forall_cons in Hall as [Hdev Hrest].
  unfold devicesOfKind in *. simpl.
  rewrite !filter_cons.
  destruct (kind dev) eqn:Hk; repeat case_decide; try congruence;
    match goal with
    | |- context [collect rest (S index) ?acc] =>
        destruct (IH (S index) acc.1.1 acc.1.2 acc.2 Hrest) as (Ev & Ea & Eo)
    end; simpl in *;
    rewrite Ev, Ea, Eo, ?fmap_app, <- ?app_assoc; simpl;
    by rewrite ?deviceIdOr_given.
Qed.
End collect.



(** Every device [enumerateDevices] lists has a non-empty id and a
    non-empty label, whatever the browser reported. *)
Theorem enumerateDevices_names_every_device
    (navigator : option (list MediaDevices.MediaDeviceInfo)) (next : nat) :
  let e := MediaDevices.enumerateDevices navigator next in
  Forall MediaDevices.named (MediaDevices.items (MediaDevices.enumInputVideoDevices e))
  ∧ Forall MediaDevices.named (MediaDevices.items (MediaDevices.enumInputAudioDevices e))
  ∧ Forall MediaDevices.named (MediaDevices.items (MediaDevices.enumOutputAudioDevices e)).
Proof.
  intros e. subst e. destruct navigator as [devices|]; [|by repeat constructor].
  unfold MediaDevices.enumerateDevices.
  pose proof (collect_named devices 0 [] [] [] (Forall_nil_2 _) (Forall_nil_2 _)
                (Forall_nil_2 _)) as H.
  destruct (MediaDevices.collect devices 0 ([], [], [])) as [[video audio] output].
  simpl in *. tauto.
Qed.

(** When every reported device carries a device id, the listed ids are
    those ids, kind by kind and in order. *)
Theorem enumerateDevices_keeps_given_ids (devices : list MediaDevices.MediaDeviceInfo)
    (next : nat) :
  Forall (λ dev, MediaDevices.deviceId dev ≠ "") devices →
  let e := MediaDevices.enumerateDevices (Some devices) next in
  MediaDevices.id <$> MediaDevices.items (MediaDevices.enumInputVideoDevices e)
  = MediaDevices.deviceId <$> MediaDevices.devicesOfKind MediaDevices.videoinput devices
  ∧ MediaDevices.id <$> MediaDevices.items (MediaDevices.enumInputAudioDevices e)
    = MediaDevices.deviceId <$> MediaDevices.devicesOfKind MediaDevices.audioinput devices
  ∧ MediaDevices.id <$> MediaDevices.items (MediaDevices.enumOutputAudioDevices e)
    = MediaDevices.deviceId <$> MediaDevices.devicesOfKind MediaDevices.audiooutput devices.
Proof.
  intros Hall e. subst e. unfold MediaDevices.enumerateDevices.
  pose proof (collect_ids devices 0 [] [] [] Hall) as H.
  destruct (MediaDevices.collect devices 0 ([], [], [])) as [[video audio] output].
  exact H.
Qed.

Lemma enumerateDevices_keeps_given_ids_witness :
  MediaDevices.id
    <$> MediaDevices.items
          (MediaDevices.enumInputAudioDevices
             (MediaDevices.enumerateDevices
                (Some [ {| MediaDevices.kind := MediaDevices.audioinput;
                           MediaDevices.deviceId := "mic";
                           MediaDevices.infoLabel := "" |};
                        {| MediaDevices.kind := MediaDevices.videoinput;
                           MediaDevices.deviceId := "cam";
                           MediaDevices.infoLabel := "Camera" |} ]) 0))
  = ["mic"].
Proof.
  refine (proj1 (proj2 (enumerateDevices_keeps_given_ids _ 0 _))).
  repeat constructor; discriminate.
Defined.

(** ** Position: what an override can and cannot do *)

(** On every axis and at every level, an override whose coordinate is 0
    resolves like no override at that level, and an override whose
    coordinate is not 0 makes the level's base coordinate irrelevant. *)
Theorem override_coordinate_replaces_unless_zero (a : axis)
    (g m d g' m' d' : Position.t) (cg cm cd : option Position.t)
    (c position : Position.t) :
  (coordinate a c = 0 →
   coordinate a (useStageDevicePosition (Some g) (Some m) (Some d) (Some c) cm cd position)
   = coordinate a (useStageDevicePosition (Some g) (Some m) (Some d) None cm cd position)
   ∧ coordinate a (useStageDevicePosition (Some g) (Some m) (Some d) cg (Some c) cd position)
     = coordinate a (useStageDevicePosition (Some g) (Some m) (Some d) cg None cd position)
   ∧ coordinate a (useStageDevicePosition (Some g) (Some m) (Some d) cg cm (Some c) position)
     = coordinate a (useStageDevicePosition (Some g) (Some m) (Some d) cg cm None position))
  ∧ (coordinate a c ≠ 0 →
     coordinate a (useStageDevicePosition (Some g) (Some m) (Some d) (Some c) cm cd position)
     = coordinate a (useStageDevicePosition (Some g') (Some m) (Some d) (Some c) cm cd position)
     ∧ coordinate a (useStageDevicePosition (Some g) (Some m) (Some d) cg (Some c) cd position)
       = coordinate a
           (useStageDevicePosition (Some g) (Some m') (Some d) cg (Some c) cd position)
     ∧ coordinate a (useStageDevicePosition (Some g) (Some m) (Some d) cg cm (Some c) position)
       = coordinate a
           (useStageDevicePosition (Some g) (Some m) (Some d') cg cm (Some c) position)).
Proof.
  split; intros Hc; destruct a; simpl in *; unfold num_or at 1 2 3 4 5 6; simpl;
    rewrite ?Hc, ?bool_decide_eq_true_2, ?bool_decide_eq_false_2 by done; done.
Qed.


(** ** Track binding *)

Lemma bindTrack_bound audioTrackId audioTrackDeviceId deviceId src t :
  TrackBinding.bindTrack audioTrackId audioTrackDeviceId deviceId src (Some t) = Some t.
Proof. unfold TrackBinding.bindTrack. by case_bool_decide. Qed.

(** Once an audio-track node has a track, no later change of the producers
    or consumers replaces or drops it; and a node is only ever given the
    producer's track when the audio track belongs to the listening device,
    the consumer's track when it does not. *)
Theorem bound_track_is_kept (audioTrackId audioTrackDeviceId deviceId : string)
    (changes : list TrackBinding.sources) (src : TrackBinding.sources) (t : string) :
  TrackBinding.bindTrackOver audioTrackId audioTrackDeviceId deviceId changes (Some t)
  = Some t
  ∧ (TrackBinding.bindTrack audioTrackId audioTrackDeviceId deviceId src None = Some t →
     if bool_decide (audioTrackDeviceId = deviceId)
     then TrackBinding.audioProducers src !! audioTrackId = Some (Some t)
     else TrackBinding.audioConsumers src !! audioTrackId = Some t).
Proof.
  split.
  - unfold TrackBinding.bindTrackOver.
    induction changes as [|c changes IH]; [done|].
    simpl. by rewrite bindTrack_bound.
  - unfold TrackBinding.bindTrack. case_bool_decide.
    + destruct (TrackBinding.audioProducers src !! audioTrackId) as [[t'|]|]; congruence.
    + destruct (TrackBinding.audioConsumers src !! audioTrackId) as [t'|]; congruence.
Qed.

(** ** Refused requests *)

(** Closing has no guard and commits only on acknowledgement: when the
    server refuses a close-producer or close-consumer request, the call
    rejects with the server's error after sending the one request; when the
    server acknowledges, the object comes back closed with its id and pause
    state untouched, also when it was closed already. *)
Theorem close_commits_on_acknowledgement (E : Mediasoup.env) (producer : Mediasoup.Producer)
    (consumer : Mediasoup.Consumer) (w : Mediasoup.world) :
  let closeP := Mediasoup.CloseProducer (Mediasoup.producerId producer) in
  let closeC := Mediasoup.CloseConsumer (Mediasoup.consumerId consumer) in
  match Mediasoup.failed (Mediasoup.ackPlain E (Mediasoup.sent w) closeP) with
  | Some m =>
      Mediasoup.stopProducer E producer w
      = (Mediasoup.Rejected (Mediasoup.ErrString m), Mediasoup.emitted closeP w)
  | None =>
      ∃ p, Mediasoup.stopProducer E producer w = (Mediasoup.Resolved p, Mediasoup.emitted closeP w)
           ∧ Mediasoup.producerClosed p = true
           ∧ Mediasoup.producerId p = Mediasoup.producerId producer
           ∧ Mediasoup.producerPaused p = Mediasoup.producerPaused producer
  end
  ∧ match Mediasoup.failed (Mediasoup.ackPlain E (Mediasoup.sent w) closeC) with
    | Some m =>
        Mediasoup.closeConsumer E consumer w
        = (Mediasoup.Rejected (Mediasoup.ErrString m), Mediasoup.emitted closeC w)
    | None =>
        ∃ c, Mediasoup.closeConsumer E consumer w
             = (Mediasoup.Resolved c, Mediasoup.emitted closeC w)
             ∧ Mediasoup.consumerClosed c = true
             ∧ Mediasoup.consumerId c = Mediasoup.consumerId consumer
             ∧ Mediasoup.consumerPaused c = Mediasoup.consumerPaused consumer
    end.
Proof.
  intros closeP closeC. subst closeP closeC.
  unfold Mediasoup.stopProducer, Mediasoup.closeConsumer.
  split; destruct (Mediasoup.failed _); try done; by eexists.
Qed.
